(** * wav2mp3: a shallow embedding of [wav2mp3.c]

    The program walks a directory, starts one detached encoder thread per
    [.wav] entry (at most one per processor core at a time) and waits until
    the shared thread counter is back at zero.  This file models

    - [encode_wav2mp3]: the per-file streaming loop, over an abstract LAME
      codec, a source file of 16-bit samples and a destination that may
      accept fewer bytes than requested;
    - [threadFunction] and [main]: a small-step machine over the shared
      counter [numthreads], one step per atomic action of a thread, driven
      by an explicit schedule.

    C integers are [Z]; [size_t] values are written with their wrap-around
    ([to_size_t]).  A [NULL] pointer is [None]. *)

From Stdlib Require Import ZArith List String Ascii Bool Lia.
Import ListNotations.
Open Scope Z_scope.

(** ** Constants of the translation unit *)

Definition WAV_SIZE : Z := 8192.
Definition MP3_SIZE : Z := 8192.
Definition EXIT_SUCCESS : Z := 0.
Definition EXIT_FAILURE : Z := 1.

(** [size_t] is an unsigned 64-bit integer on the LP64 targets the build
    notes name; converting an [int] to it reduces modulo [2^64]. *)
Definition size_t_bits : Z := 64.
Definition SIZE_MAX : Z := 2 ^ size_t_bits - 1.
Definition to_size_t (x : Z) : Z := x mod 2 ^ size_t_bits.

(** ** The outside world *)

(** The LAME library: an opaque state with the four entry points the
    program calls after [lame_init].  Each returns the [int] the C function
    returns. *)
Record codec : Type := {
  lame_state : Type;
  lame_init : lame_state;
  lame_init_params : lame_state -> lame_state * Z;
  lame_encode_buffer : lame_state -> list Z -> list Z -> Z -> lame_state * Z;
  lame_encode_flush : lame_state -> lame_state * Z
}.

(** Everything [main] and the encoder threads ask of the platform. *)
Record world : Type := {
  lame : codec;
  (* fopen(path, "rb"): the samples (shorts) of the file, None for NULL *)
  wav_files : string -> option (list Z);
  (* fopen(path, "wb") returns a stream *)
  mp3_writable : string -> bool;
  (* bytes the destination takes at its k-th fwrite of the given size *)
  disk : string -> nat -> Z -> Z;
  (* sysconf(_SC_NPROCESSORS_ONLN) *)
  nprocessors : Z;
  (* opendir + the names readdir yields, None when opendir returns NULL *)
  dir_entries : string -> option (list string)
}.

(** Lines written to the console and calls into the libraries, in program
    order. *)
Inductive event : Type :=
| EvLameInit
| EvLameInitParams (r : Z)
| EvErrInitParams                       (* "ERROR while setting internal parameters" *)
| EvFopen (path : string) (ok : bool)
| EvErrOpenWav (path : string)          (* "ERROR opening wave file: ..." *)
| EvErrOpenMp3 (path : string)          (* "ERROR opening mp3 file: ..." *)
| EvFread (frames : Z)
| EvLameEncodeBuffer (nsamples : Z) (r : Z)
| EvLameEncodeFlush (r : Z)
| EvErrEncoding (byteswrote : Z)        (* "ERROR during encoding, byteswrote: ..." *)
| EvFwrite (size : Z) (landed : Z)
| EvLameClose
| EvFclose (path : string).

(** What one call of [encode_wav2mp3] leaves behind. *)
Record result : Type := {
  exit_code : Z;
  (* length of the destination in bytes, None when it was never opened *)
  mp3_bytes : option Z;
  events : list event
}.

Definition prepend (evs : list event) (r : result) : result :=
  {| exit_code := exit_code r;
     mp3_bytes := mp3_bytes r;
     events := evs ++ events r |}.

(** ** [encode_wav2mp3] *)

(** [fread(wav_buffer, 2*sizeof(short), WAV_SIZE, wavfile)]: the number of
    complete frames read, the samples that reached the buffer and the
    unread rest of the file. *)
Definition fread (wavfile : list Z) : Z * list Z * list Z :=
  let n := Z.min WAV_SIZE (Z.of_nat (List.length wavfile) / 2) in
  (n, firstn (Z.to_nat (2 * n)) wavfile, skipn (Z.to_nat (2 * n)) wavfile).

(** The copy loop [buffer_left[i] = wav_buffer[j++]; buffer_right[i] =
    wav_buffer[j++]] for [i] below [bytesread]. *)
Fixpoint split_channels (bytesread : nat) (wav_buffer : list Z)
  : list Z * list Z :=
  match bytesread, wav_buffer with
  | S n, l :: r :: rest =>
      let (buffer_left, buffer_right) := split_channels n rest in
      (l :: buffer_left, r :: buffer_right)
  | _, _ => ([], [])
  end.

(** [fwrite(mp3_buffer, byteswrote, 1, mp3file)]: the bytes that reach the
    file, between nothing and the one item asked for. *)
Definition fwrite (W : world) (path : string) (k : nat) (size : Z) : Z :=
  Z.max 0 (Z.min size (disk W path k size)).

(** The two branches of [if( bytesread != 0 )]: split and encode the
    block, or flush when the read came back empty.  Yields the codec
    state, the [int] returned and the call made. *)
Definition encode_block (W : world) (lameflags : lame_state (lame W))
    (bytesread : Z) (wav_buffer : list Z) : lame_state (lame W) * Z * event :=
  if bytesread =? 0 then
    let (st, r) := lame_encode_flush (lame W) lameflags in
    (st, r, EvLameEncodeFlush r)
  else
    let (buffer_left, buffer_right) :=
      split_channels (Z.to_nat bytesread) wav_buffer in
    let (st, r) :=
      lame_encode_buffer (lame W) lameflags buffer_left buffer_right bytesread in
    (st, r, EvLameEncodeBuffer bytesread r).

(** The [do ... while( bytesread != 0 )] loop and the code after it.
    [len] is the length of the destination so far and [k] counts the
    [fwrite] calls.  [fuel] bounds the iterations; [stream_loop_total]
    shows that the length of the source plus one is enough. *)
Fixpoint stream_loop (fuel : nat) (W : world) (wavfile_path mp3file_path : string)
    (lameflags : lame_state (lame W)) (wavfile : list Z) (len : Z) (k : nat)
  : option result :=
  match fuel with
  | O => None
  | S fuel' =>
      let '(bytesread, wav_buffer, rest) := fread wavfile in
      let '(lameflags', r, call) := encode_block W lameflags bytesread wav_buffer in
      (* the int is stored in a size_t *)
      let byteswrote := to_size_t r in
      if byteswrote <? 0 then
        Some {| exit_code := EXIT_FAILURE;
                mp3_bytes := Some len;
                events := [EvFread bytesread; call; EvErrEncoding byteswrote] |}
      else
        let landed := fwrite W mp3file_path k byteswrote in
        let len' := len + landed in
        let evs := [EvFread bytesread; call; EvFwrite byteswrote landed] in
        if bytesread =? 0 then
          Some {| exit_code := EXIT_SUCCESS;
                  mp3_bytes := Some len';
                  events := evs ++ [EvLameClose; EvFclose wavfile_path;
                                    EvFclose mp3file_path] |}
        else
          option_map (prepend evs)
            (stream_loop fuel' W wavfile_path mp3file_path lameflags' rest len' (S k))
  end.

(** The whole function.  Log lines are written under the mutex, whose lock
    is taken to succeed inside this function. *)
Definition encode_wav2mp3 (W : world) (wavfile_path mp3file_path : string)
  : option result :=
  let (lameflags, rc) := lame_init_params (lame W) (lame_init (lame W)) in
  let init :=
    EvLameInit :: EvLameInitParams rc ::
    (if rc <? 0 then [EvErrInitParams] else []) in
  match wav_files W wavfile_path with
  | None =>
      Some {| exit_code := EXIT_FAILURE;
              mp3_bytes := None;
              events := init ++ [EvFopen wavfile_path false;
                                 EvErrOpenWav wavfile_path] |}
  | Some wavfile =>
      if mp3_writable W mp3file_path then
        option_map
          (prepend (init ++ [EvFopen wavfile_path true; EvFopen mp3file_path true]))
          (stream_loop (S (List.length wavfile)) W wavfile_path mp3file_path
             lameflags wavfile 0 0)
      else
        Some {| exit_code := EXIT_FAILURE;
                mp3_bytes := None;
                events := init ++ [EvFopen wavfile_path true;
                                   EvFopen mp3file_path false;
                                   EvErrOpenMp3 mp3file_path] |}
  end.

(** ** Directory entries and path building in [main] *)

(** [strrchr(s, c)] for a character [c] other than NUL: the suffix of [s]
    that starts at the last [c], [None] (NULL) when [s] has none. *)
Fixpoint strrchr (s : string) (c : ascii) : option string :=
  match s with
  | EmptyString => None
  | String a s' =>
      match strrchr s' c with
      | Some t => Some t
      | None => if Ascii.eqb a c then Some s else None
      end
  end.

(** [strcmp(p, q) == 0]; the call is undefined ([None]) on a NULL [p]. *)
Definition strcmp_is_zero (p : option string) (q : string) : option bool :=
  match p with
  | None => None
  | Some s => Some (String.eqb s q)
  end.

(** [strcpy(strrchr(s, c), repl)]: [s] with everything from its last [c]
    on overwritten by [repl]. *)
Fixpoint strcpy_at_last (s : string) (c : ascii) (repl : string) : option string :=
  match s with
  | EmptyString => None
  | String a s' =>
      match strcpy_at_last s' c repl with
      | Some t => Some (String a t)
      | None => if Ascii.eqb a c then Some repl else None
      end
  end.

(** [path[strlen(path)-1]] *)
Fixpoint last_char (s : string) : option ascii :=
  match s with
  | EmptyString => None
  | String a EmptyString => Some a
  | String _ s' => last_char s'
  end.

(** [if( path[strlen(path)-1] != '/' ) strcat( path, "/" )]; the path is
    not empty once [opendir] has accepted it. *)
Definition with_slash (path : string) : string :=
  match last_char path with
  | Some "/"%char => path
  | _ => (path ++ "/")%string
  end.

(** The part of [threadParams] that differs between threads; [numthreads]
    and [mutex] point at the one counter and the one lock of [main]. *)
Record threadParams : Type := {
  wavfile_path : string;
  mp3file_path : string
}.

(** The parameters [main] builds for an entry that passed the test. *)
Definition build_params (path d_name : string) : option threadParams :=
  let wav := (path ++ d_name)%string in
  match strcpy_at_last wav "." ".mp3" with
  | Some mp3 => Some {| wavfile_path := wav; mp3file_path := mp3 |}
  | None => None
  end.

(** ** The threads *)

(** Where an encoder thread stands in [threadFunction]. *)
Inductive worker : Type :=
| WBegin (p : threadParams)      (* created, before the BEGIN line *)
| WDecrement (p : threadParams)  (* encode returned EXIT_SUCCESS; at line 78 *)
| WFinish (p : threadParams)     (* at the END line *)
| WExited (code : Z).            (* after pthread_exit *)

(** Where [main] stands. *)
Inductive dispatcher : Type :=
| MReaddir (entries : list string)                   (* at readdir *)
| MPoll (p : threadParams) (entries : list string)   (* at while( numthreads >= numcores ) *)
| MIncrement (entries : list string)                 (* thread created; at the lock of line 404 *)
| MDrain                                             (* at while( numthreads > 0 ) *)
| MDone                                              (* returned EXIT_SUCCESS *)
| MCrashed.                                          (* ran into undefined behaviour *)

(** What the run has done so far, newest first. *)
Inductive action : Type :=
| ASkip (d_name : string)           (* "... is not a wave file, skipping..." *)
| ASleeping (n : Z)                 (* "Number of active threads = n, main(): sleeping" *)
| AWaiting (n : Z)                  (* "... main(): wait to finish" *)
| ACreateFailed (wav : string)      (* "ERROR creating thread for ..." *)
| ACreated (tid : nat) (p : threadParams)
| AIncrement                        (* numthreads += 1 *)
| AAllFinished                      (* "All threads finished, closing..." *)
| ABeginLine (tid : nat) (p : threadParams)
| AEncoded (tid : nat) (r : result)
| ADecrement (tid : nat)            (* numthreads -= 1 *)
| ANotPositive (tid : nat)          (* "ERROR numthreads !>0" *)
| AEndLine (tid : nat) (p : threadParams).   (* "has encoded ... succesfully" *)

(** The variables of [main] that the threads share or that decide its
    control flow.  [numthreads] is an [int]; [counter_inv] keeps it between
    0 and the limit, so the increment does not overflow for a limit that
    fits an [int]. *)
Record state : Type := {
  numcores : Z;
  numthreads : Z;
  path : string;
  pc : dispatcher;
  threads : list worker;
  history : list action
}.

(** The locked block of lines 78-90, given the counter: the new counter
    and what was logged. *)
Definition decrement (tid : nat) (n : Z) : Z * list action :=
  if n >? 0 then (n - 1, [ADecrement tid]) else (n, [ANotPositive tid]).

Fixpoint set_thread (tid : nat) (w : worker) (ts : list worker) : list worker :=
  match ts, tid with
  | [], _ => []
  | _ :: ts', O => w :: ts'
  | t :: ts', S tid' => t :: set_thread tid' w ts'
  end.

(** One step of the thread [tid] in [threadFunction].  [locked] tells
    whether the [pthread_mutex_lock] of that step returned 0. *)
Definition threadFunction (W : world) (tid : nat) (locked : bool) (s : state) : state :=
  match nth_error (threads s) tid with
  | Some (WBegin p) =>
      match encode_wav2mp3 W (wavfile_path p) (mp3file_path p) with
      | None => s        (* the call has not returned *)
      | Some r =>
          let next :=
            if exit_code r =? EXIT_SUCCESS then WDecrement p
            else WExited EXIT_FAILURE in
          {| numcores := numcores s;
             numthreads := numthreads s;
             path := path s;
             pc := pc s;
             threads := set_thread tid next (threads s);
             history := AEncoded tid r
                        :: (if locked then [ABeginLine tid p] else [])
                        ++ history s |}
      end
  | Some (WDecrement p) =>
      let (n, log) :=
        if locked then decrement tid (numthreads s) else (numthreads s, []) in
      {| numcores := numcores s;
         numthreads := n;
         path := path s;
         pc := pc s;
         threads := set_thread tid (WFinish p) (threads s);
         history := log ++ history s |}
  | Some (WFinish p) =>
      {| numcores := numcores s;
         numthreads := numthreads s;
         path := path s;
         pc := pc s;
         threads := set_thread tid (WExited EXIT_SUCCESS) (threads s);
         history := (if locked then [AEndLine tid p] else []) ++ history s |}
  | Some (WExited _) => s
  | None => s
  end.

(** One step of [main] after [opendir].  [ok] is the outcome of the library
    call of that step: [pthread_create] at [MPoll], [pthread_mutex_lock] at
    [MIncrement].  The last test of the poll loop and [pthread_create] form
    one step, since only the test reads shared state; the calls whose
    outcome is only logged ([pthread_cancel], [pthread_detach]) are left
    out.  An entry without a dot hands NULL to [strcmp]: the behaviour is
    undefined and the machine stops in [MCrashed]. *)
Definition main_step (ok : bool) (s : state) : state :=
  match pc s with
  | MReaddir [] =>
      {| numcores := numcores s; numthreads := numthreads s; path := path s;
         pc := MDrain; threads := threads s; history := history s |}
  | MReaddir (d_name :: entries) =>
      match strcmp_is_zero (strrchr d_name ".") ".wav" with
      | None =>
          {| numcores := numcores s; numthreads := numthreads s; path := path s;
             pc := MCrashed; threads := threads s; history := history s |}
      | Some true =>
          let path' := with_slash (path s) in
          match build_params path' d_name with
          | Some p =>
              {| numcores := numcores s; numthreads := numthreads s; path := path';
                 pc := MPoll p entries; threads := threads s; history := history s |}
          | None =>
              {| numcores := numcores s; numthreads := numthreads s; path := path';
                 pc := MCrashed; threads := threads s; history := history s |}
          end
      | Some false =>
          {| numcores := numcores s; numthreads := numthreads s; path := path s;
             pc := MReaddir entries; threads := threads s;
             history := ASkip d_name :: history s |}
      end
  | MPoll p entries =>
      if numthreads s >=? numcores s then
        {| numcores := numcores s; numthreads := numthreads s; path := path s;
           pc := MPoll p entries; threads := threads s;
           history := ASleeping (numthreads s) :: history s |}
      else if ok then
        {| numcores := numcores s; numthreads := numthreads s; path := path s;
           pc := MIncrement entries;
           threads := threads s ++ [WBegin p];
           history := ACreated (List.length (threads s)) p :: history s |}
      else
        {| numcores := numcores s; numthreads := numthreads s; path := path s;
           pc := MReaddir entries; threads := threads s;
           history := ACreateFailed (wavfile_path p) :: history s |}
  | MIncrement entries =>
      if ok then
        {| numcores := numcores s; numthreads := numthreads s + 1; path := path s;
           pc := MReaddir entries; threads := threads s;
           history := AIncrement :: history s |}
      else
        {| numcores := numcores s; numthreads := numthreads s; path := path s;
           pc := MReaddir entries; threads := threads s; history := history s |}
  | MDrain =>
      if numthreads s >? 0 then
        {| numcores := numcores s; numthreads := numthreads s; path := path s;
           pc := MDrain; threads := threads s;
           history := AWaiting (numthreads s) :: history s |}
      else
        {| numcores := numcores s; numthreads := numthreads s; path := path s;
           pc := MDone; threads := threads s;
           history := AAllFinished :: history s |}
  | MDone => s
  | MCrashed => s
  end.

(** [main] up to the directory loop: the exit status when it returns
    early, the first state of the machine otherwise. *)
Definition main (W : world) (argv : list string) : Z + state :=
  match argv with
  | [_; dir] =>
      match dir_entries W dir with
      | None => inl EXIT_FAILURE
      | Some entries =>
          inr {| numcores := nprocessors W;
                 numthreads := 0;
                 path := dir;
                 pc := MReaddir entries;
                 threads := [];
                 history := [] |}
      end
  | _ => inl EXIT_FAILURE
  end.

(** ** Interleavings *)

(** Who moves next, with the outcome of the library call of that step. *)
Inductive choice : Type :=
| RunMain (ok : bool)
| RunThread (tid : nat) (locked : bool).

Definition step (W : world) (c : choice) (s : state) : state :=
  match c with
  | RunMain ok => main_step ok s
  | RunThread tid locked => threadFunction W tid locked s
  end.

Fixpoint run (W : world) (schedule : list choice) (s : state) : state :=
  match schedule with
  | [] => s
  | c :: schedule' => run W schedule' (step W c s)
  end.

(** The states some interleaving reaches from the start of the directory
    loop. *)
Definition reachable (W : world) (argv : list string) (s : state) : Prop :=
  exists s0 schedule, main W argv = inr s0 /\ run W schedule s0 = s.

Definition count_increments (h : list action) : nat :=
  List.length (filter (fun a => match a with AIncrement => true | _ => false end) h).

Definition count_decrements (h : list action) : nat :=
  List.length (filter (fun a => match a with ADecrement _ => true | _ => false end) h).

(** ** Reading a run *)

(** The ints the codec returned for the blocks, in call order. *)
Fixpoint encode_returns (evs : list event) : list Z :=
  match evs with
  | [] => []
  | EvLameEncodeBuffer _ r :: evs' => r :: encode_returns evs'
  | _ :: evs' => encode_returns evs'
  end.

(** The ints the codec returned for flushes. *)
Fixpoint flush_returns (evs : list event) : list Z :=
  match evs with
  | [] => []
  | EvLameEncodeFlush r :: evs' => r :: flush_returns evs'
  | _ :: evs' => flush_returns evs'
  end.

Definition sum (l : list Z) : Z := fold_right Z.add 0 l.

Definition INT_MAX : Z := 2147483647.

(** A codec call succeeded: it returned a byte count, an [int] that is
    not negative. *)
Definition succeeded (r : Z) : bool := (0 <=? r) && (r <=? INT_MAX).

Definition calls_succeeded (evs : list event) : bool :=
  forallb (fun e => match e with
                    | EvLameEncodeBuffer _ r | EvLameEncodeFlush r => succeeded r
                    | _ => true
                    end) evs.

(** Every [fwrite] put its whole item into the file. *)
Definition writes_complete (evs : list event) : bool :=
  forallb (fun e => match e with
                    | EvFwrite size landed => landed =? size
                    | _ => true
                    end) evs.

(** The source was read or the codec was fed. *)
Definition streamed (evs : list event) : bool :=
  existsb (fun e => match e with
                    | EvFread _ | EvLameEncodeBuffer _ _ | EvLameEncodeFlush _
                    | EvFwrite _ _ => true
                    | _ => false
                    end) evs.

Definition closed (evs : list event) : bool :=
  existsb (fun e => match e with EvLameClose => true | _ => false end) evs.

(** A stereo stream of 16-bit samples: whole frames only. *)
Definition valid_stereo_pcm (wavfile : list Z) : bool :=
  Nat.even (List.length wavfile)
  && forallb (fun x => (-32768 <=? x) && (x <=? 32767)) wavfile.

(** ** Sample worlds *)

(** A codec that answers [lame_init_params], every [lame_encode_buffer]
    and every [lame_encode_flush] with a fixed int each. *)
Definition constant_codec (params block flush : Z) : codec :=
  {| lame_state := unit;
     lame_init := tt;
     lame_init_params := fun st => (st, params);
     lame_encode_buffer := fun st _ _ _ => (st, block);
     lame_encode_flush := fun st => (st, flush) |}.

Fixpoint lookup (files : list (string * list Z)) (name : string) : option (list Z) :=
  match files with
  | [] => None
  | (n, f) :: files' => if String.eqb n name then Some f else lookup files' name
  end.

(** A world with the given codec, readable files, processor count and
    directory listing, where every destination opens and takes [landing
    size] bytes of each item. *)
Definition sample_world (C : codec) (files : list (string * list Z))
    (landing : Z -> Z) (cores : Z) (entries : list string) : world :=
  {| lame := C;
     wav_files := lookup files;
     mp3_writable := fun _ => true;
     disk := fun _ _ size => landing size;
     nprocessors := cores;
     dir_entries := fun _ => Some entries |}.

(** The same world with another destination behaviour. *)
Definition with_disk (W : world) (d : string -> nat -> Z -> Z) : world :=
  {| lame := lame W;
     wav_files := wav_files W;
     mp3_writable := mp3_writable W;
     disk := d;
     nprocessors := nprocessors W;
     dir_entries := dir_entries W |}.

(** The directory [d] with one readable source of two frames, [d/a.wav],
    and a codec that answers with [params], [block] and [flush]. *)
Definition two_frames : list Z := [1; 2; 3; 4].

Definition demo_world (params block flush : Z) (landing : Z -> Z) (cores : Z)
    (entries : list string) : world :=
  sample_world (constant_codec params block flush)
    [("d/a.wav"%string, two_frames)] landing cores entries.

Definition a_wav : threadParams :=
  {| wavfile_path := "d/a.wav"; mp3file_path := "d/a.mp3" |}.

(** Codec and destination behave: 10 bytes per block, 7 at the flush. *)
Definition world_ok : world :=
  demo_world 0 10 7 (fun size => size) 2 ["."; ".."; "a.wav"; "notes.txt"]%string.

(** The codec reports "mp3buf was too small" (-1) for every block. *)
Definition world_encode_error : world :=
  demo_world 0 (-1) 7 (fun size => Z.min size MP3_SIZE) 2 ["a.wav"]%string.

(** [lame_init_params] fails. *)
Definition world_init_error : world :=
  demo_world (-1) 10 7 (fun size => size) 2 ["a.wav"]%string.

(** The directory lists [c.wav], which cannot be opened for reading. *)
Definition world_unreadable : world :=
  demo_world 0 10 7 (fun size => size) 2 ["c.wav"]%string.

(** The destination takes no bytes (a full disk). *)
Definition world_disk_full : world :=
  demo_world 0 10 7 (fun _ => 0) 2 ["a.wav"]%string.

(** The codec produces no bytes at all. *)
Definition world_silent : world :=
  demo_world 0 0 0 (fun size => size) 2 ["a.wav"]%string.

(** The processor-count query fails: [sysconf] returns -1. *)
Definition world_no_cores : world :=
  demo_world 0 10 7 (fun size => size) (-1) ["a.wav"]%string.

(** The directory holds an entry without any dot. *)
Definition world_no_dot : world :=
  demo_world 0 10 7 (fun size => size) 2 ["README"; "a.wav"]%string.

Definition argv_d : list string := ["wav2mp3"; "d"]%string.

(** ** Invariants of the machine *)

(** The counter stays between 0 and the limit, and is strictly below the
    limit while [main] is about to increment it. *)
Definition counter_inv (s : state) : Prop :=
  0 <= numthreads s <= Z.max 0 (numcores s) /\
  (forall entries, pc s = MIncrement entries -> numthreads s < numcores s).

(** With a limit of zero or less nothing is ever started. *)
Definition idle_inv (s : state) : Prop :=
  threads s = [] /\ numthreads s = 0 /\
  count_increments (history s) = 0%nat /\
  (forall entries, pc s <> MIncrement entries).

(** [main] waits in the drain loop for a counter nobody will lower. *)
Definition stuck_in_drain (s : state) : Prop :=
  pc s = MDrain /\ numthreads s = 1 /\
  threads s = [WExited EXIT_FAILURE] /\
  count_decrements (history s) = 0%nat.

(** The three steps of a thread, each with its lock taken. *)
Definition thread_to_end (tid : nat) : list choice :=
  [RunThread tid true; RunThread tid true; RunThread tid true].

(** [main] reads [c.wav], starts its thread and counts it; the thread
    fails to open the source; [main] reaches the drain loop. *)
Definition schedule_failed_job : list choice :=
  [RunMain true; RunMain true; RunMain true; RunThread 0 true; RunMain true].

(** [main] skips [.] and [..] and starts the thread for [a.wav]; the
    thread runs up to its decrement before [main] has incremented. *)
Definition schedule_early_worker : list choice :=
  [RunMain true; RunMain true; RunMain true; RunMain true; RunThread 0 true].

(** The state in which [main] enters the directory loop of [d]. *)
Definition start (cores : Z) (entries : list string) : state :=
  {| numcores := cores;
     numthreads := 0;
     path := "d";
     pc := MReaddir entries;
     threads := [];
     history := [] |}.

(** A destination that takes nothing of any item. *)
Definition nothing_lands : string -> nat -> Z -> Z := fun _ _ _ => 0.

(** [main] has created the thread for [a.wav], which has not run yet. *)
Definition thread_created : state :=
  run world_ok [RunMain true; RunMain true; RunMain true; RunMain true]
    (start 2 ["."; ".."; "a.wav"; "notes.txt"]%string).

(** ** Reading a run, continued *)



(** The item sizes handed to [fwrite], and the bytes that landed. *)
Fixpoint fwrite_sizes (evs : list event) : list Z :=
  match evs with
  | [] => []
  | EvFwrite size _ :: evs' => size :: fwrite_sizes evs'
  | _ :: evs' => fwrite_sizes evs'
  end.

Fixpoint fwrite_landed (evs : list event) : list Z :=
  match evs with
  | [] => []
  | EvFwrite _ landed :: evs' => landed :: fwrite_landed evs'
  | _ :: evs' => fwrite_landed evs'
  end.

(** Every codec call is followed at once by an [fwrite] whose item size
    is the returned int as a [size_t]. *)
Fixpoint each_call_written (evs : list event) : bool :=
  match evs with
  | [] => true
  | EvLameEncodeBuffer _ r :: evs' =>
      match evs' with
      | EvFwrite size _ :: _ => (size =? to_size_t r) && each_call_written evs'
      | _ => false
      end
  | EvLameEncodeFlush r :: evs' =>
      match evs' with
      | EvFwrite size _ :: _ => (size =? to_size_t r) && each_call_written evs'
      | _ => false
      end
  | _ :: evs' => each_call_written evs'
  end.

(** No [fwrite] put more into the file than its item, nor less than
    nothing. *)
Definition writes_within (evs : list event) : bool :=
  forallb (fun e => match e with
                    | EvFwrite size landed => (0 <=? landed) && (landed <=? size)
                    | _ => true
                    end) evs.

Definition fclosed (path : string) (evs : list event) : bool :=
  existsb (fun e => match e with
                    | EvFclose p => String.eqb p path
                    | _ => false
                    end) evs.


(** 1 while [main] stands between [pthread_create] and its increment. *)
Definition uncounted (d : dispatcher) : Z :=
  match d with
  | MIncrement _ => 1
  | _ => 0
  end.

(** The counter is what the increments and decrements made of it, and
    [main] is past the drain loop only with a counter of zero. *)
Definition accounting_inv (s : state) : Prop :=
  0 <= numthreads s /\
  numthreads s = Z.of_nat (count_increments (history s))
                 - Z.of_nat (count_decrements (history s)) /\
  (pc s = MDone -> numthreads s = 0).

(** The thread [tid] has exited with [code] and has never decremented. *)
Definition exited_without_decrement (tid : nat) (code : Z) (s : state) : Prop :=
  nth_error (threads s) tid = Some (WExited code) /\
  ~ In (ADecrement tid) (history s).

(** The whole run over [world_ok]: the thread for [a.wav] gets as far as
    its decrement only after [main] has counted it, [notes.txt] is
    skipped, and [main] drains and returns. *)
Definition schedule_whole_run : list choice :=
  [RunMain true; RunMain true; RunMain true; RunMain true; RunMain true]
  ++ thread_to_end 0
  ++ [RunMain true; RunMain true; RunMain true].

(** The counter does not count a thread that was not created. *)
Definition created_inv (s : state) : Prop :=
  numthreads s + uncounted (pc s) <= Z.of_nat (List.length (threads s)).

(** ** One job after the other *)

(** The entry passes the test of line 353. *)
Definition accepted (d_name : string) : bool :=
  match strcmp_is_zero (strrchr d_name ".") ".wav" with
  | Some true => true
  | _ => false
  end.

(** The schedule in which each thread runs to its end as soon as [main]
    has counted it; [tid] is the number of threads created before. *)
Fixpoint sequential (entries : list string) (tid : nat) : list choice :=
  match entries with
  | [] => [RunMain true; RunMain true]
  | d_name :: entries' =>
      if accepted d_name then
        [RunMain true; RunMain true; RunMain true]
        ++ thread_to_end tid ++ sequential entries' (S tid)
      else
        RunMain true :: sequential entries' tid
  end.

(** Source and destination of the job for [d_name] can be opened. *)
Definition job_opens (W : world) (path d_name : string) : Prop :=
  forall p, build_params path d_name = Some p ->
    (exists wavfile, wav_files W (wavfile_path p) = Some wavfile) /\
    mp3_writable W (mp3file_path p) = true.

(** ** Decrements, thread by thread *)

(** How often the thread [tid] has executed [numthreads -= 1]. *)
Definition decrements_of (tid : nat) (h : list action) : nat :=
  List.length
    (filter (fun a => match a with
                      | ADecrement t => Nat.eqb t tid
                      | _ => false
                      end) h).

(** The thread has left the locked block of lines 78-90 behind. *)
Definition past_decrement (w : option worker) : bool :=
  match w with
  | Some (WFinish _) | Some (WExited _) => true
  | _ => false
  end.

(** A thread that has not passed its decrement has made none, and no
    thread has made more than one. *)
Definition once_inv (tid : nat) (s : state) : Prop :=
  if past_decrement (nth_error (threads s) tid)
  then (decrements_of tid (history s) <= 1)%nat
  else decrements_of tid (history s) = 0%nat.

(** The thread is past its decrement and has made [k] of them. *)
Definition settled_inv (tid k : nat) (s : state) : Prop :=
  past_decrement (nth_error (threads s) tid) = true /\
  decrements_of tid (history s) = k.

(** * Properties *)

(** ** [size_t] *)

Lemma to_size_t_nonneg (x : Z) : 0 <= to_size_t x.
Proof.
  unfold to_size_t, size_t_bits.
  apply Z.mod_pos_bound. reflexivity.
Qed.

(** The test [byteswrote < 0] on a [size_t] never holds. *)
Lemma size_t_never_negative (x : Z) : (to_size_t x <? 0) = false.
Proof.
  apply Z.ltb_ge, to_size_t_nonneg.
Qed.

Lemma to_size_t_of_count (r : Z) : succeeded r = true -> to_size_t r = r.
Proof.
  unfold succeeded, INT_MAX, to_size_t, size_t_bits. intros H.
  apply andb_prop in H as [H0 H1].
  apply Z.leb_le in H0, H1.
  apply Z.mod_small. lia.
Qed.

(** A negative [int] becomes a huge [size_t]. *)
Lemma to_size_t_of_error (r : Z) :
  - 2 ^ 31 <= r < 0 -> to_size_t r = 2 ^ size_t_bits + r.
Proof.
  unfold to_size_t, size_t_bits. intros H.
  symmetry. apply Z.mod_unique with (q := -1); lia.
Qed.

(** ** The streaming loop returns *)

Lemma fread_frames_bounds (wavfile : list Z) :
  let '(bytesread, _, _) := fread wavfile in
  0 <= bytesread <= WAV_SIZE /\ 2 * bytesread <= Z.of_nat (List.length wavfile).
Proof.
  unfold fread, WAV_SIZE. cbv zeta.
  pose proof (Z.div_pos (Z.of_nat (List.length wavfile)) 2).
  pose proof (Z.mul_div_le (Z.of_nat (List.length wavfile)) 2).
  lia.
Qed.

Lemma fread_consumes (wavfile : list Z) :
  let '(bytesread, _, rest) := fread wavfile in
  bytesread <> 0 -> (List.length rest < List.length wavfile)%nat.
Proof.
  pose proof (fread_frames_bounds wavfile) as H.
  unfold fread in *. cbv zeta in *.
  intros Hn. rewrite length_skipn. lia.
Qed.

Lemma stream_loop_total (fuel : nat) :
  forall W wp mp (st : lame_state (lame W)) wavfile len k,
    (List.length wavfile < fuel)%nat ->
    exists r, stream_loop fuel W wp mp st wavfile len k = Some r.
Proof.
  induction fuel as [|fuel IH]; intros W wp mp st wavfile len k Hlen; [lia|].
  pose proof (fread_consumes wavfile) as Hc.
  cbn [stream_loop].
  destruct (fread wavfile) as [[bytesread wav_buffer] rest].
  destruct (encode_block W st bytesread wav_buffer) as [[st' r] call].
  rewrite size_t_never_negative.
  destruct (bytesread =? 0) eqn:E.
  - eexists; reflexivity.
  - apply Z.eqb_neq in E.
    destruct (IH W wp mp st' rest (len + fwrite W mp k (to_size_t r)) (S k)) as [r' Hr'].
    + specialize (Hc E). lia.
    + rewrite Hr'. eexists; reflexivity.
Qed.

(** [encode_wav2mp3] returns on every input. *)
Lemma encode_wav2mp3_total (W : world) (wp mp : string) :
  exists r, encode_wav2mp3 W wp mp = Some r.
Proof.
  unfold encode_wav2mp3.
  destruct (lame_init_params (lame W) (lame_init (lame W))) as [st rc].
  destruct (wav_files W wp) as [wavfile|]; [|eexists; reflexivity].
  destruct (mp3_writable W mp); [|eexists; reflexivity].
  destruct (stream_loop_total (S (List.length wavfile)) W wp mp st wavfile 0 0 (Nat.lt_succ_diag_r _))
    as [r Hr].
  rewrite Hr. eexists; reflexivity.
Qed.

(** ** What the streaming loop does *)

Lemma encode_block_call (W : world) (st st' : lame_state (lame W)) n buf r call :
  encode_block W st n buf = (st', r, call) ->
  call = if n =? 0 then EvLameEncodeFlush r else EvLameEncodeBuffer n r.
Proof.
  unfold encode_block. destruct (n =? 0).
  - destruct (lame_encode_flush (lame W) st); intros [= _ <- <-]; reflexivity.
  - destruct (split_channels (Z.to_nat n) buf).
    destruct (lame_encode_buffer (lame W) st l l0 n); intros [= _ <- <-]; reflexivity.
Qed.

(** One turn of the loop, with the size_t test resolved. *)
Lemma stream_loop_unfold (fuel : nat) (W : world) wp mp
    (st : lame_state (lame W)) wavfile len k :
  stream_loop (S fuel) W wp mp st wavfile len k =
  let '(bytesread, wav_buffer, rest) := fread wavfile in
  let '(st', r, _) := encode_block W st bytesread wav_buffer in
  let landed := fwrite W mp k (to_size_t r) in
  if bytesread =? 0 then
    Some {| exit_code := EXIT_SUCCESS;
            mp3_bytes := Some (len + landed);
            events := [EvFread 0; EvLameEncodeFlush r; EvFwrite (to_size_t r) landed;
                       EvLameClose; EvFclose wp; EvFclose mp] |}
  else
    option_map
      (prepend [EvFread bytesread; EvLameEncodeBuffer bytesread r;
                EvFwrite (to_size_t r) landed])
      (stream_loop fuel W wp mp st' rest (len + landed) (S k)).
Proof.
  cbn [stream_loop].
  destruct (fread wavfile) as [[bytesread wav_buffer] rest].
  destruct (encode_block W st bytesread wav_buffer) as [[st' r] call] eqn:E.
  apply encode_block_call in E. subst call.
  rewrite size_t_never_negative.
  destruct (bytesread =? 0) eqn:E0; [|reflexivity].
  apply Z.eqb_eq in E0. subst. reflexivity.
Qed.

(** The loop ends in one way only: after a flush, with the session and
    both files closed and [EXIT_SUCCESS]. *)
Lemma stream_loop_exit (fuel : nat) :
  forall W wp mp (st : lame_state (lame W)) wavfile len k r,
    stream_loop fuel W wp mp st wavfile len k = Some r ->
    exit_code r = EXIT_SUCCESS /\ closed (events r) = true /\
    streamed (events r) = true /\ List.length (flush_returns (events r)) = 1%nat.
Proof.
  induction fuel as [|fuel IH]; intros W wp mp st wavfile len k r; [discriminate|].
  rewrite stream_loop_unfold.
  destruct (fread wavfile) as [[bytesread wav_buffer] rest].
  destruct (encode_block W st bytesread wav_buffer) as [[st' rc] call].
  cbv zeta. destruct (bytesread =? 0).
  - intros [= <-]. cbn. auto.
  - destruct (stream_loop fuel W wp mp st' rest _ (S k)) as [r'|] eqn:E; [|discriminate].
    intros [= <-]. apply IH in E as (He & Hc & _ & Hf).
    cbn. auto.
Qed.

(** Byte accounting: when the codec calls succeed and every [fwrite]
    lands in full, the destination grows by what the codec returned. *)
Lemma stream_loop_accounting (fuel : nat) :
  forall W wp mp (st : lame_state (lame W)) wavfile len k r,
    stream_loop fuel W wp mp st wavfile len k = Some r ->
    calls_succeeded (events r) = true ->
    writes_complete (events r) = true ->
    mp3_bytes r =
      Some (len + (sum (encode_returns (events r)) + sum (flush_returns (events r)))).
Proof.
  induction fuel as [|fuel IH]; intros W wp mp st wavfile len k r; [discriminate|].
  rewrite stream_loop_unfold.
  destruct (fread wavfile) as [[bytesread wav_buffer] rest].
  destruct (encode_block W st bytesread wav_buffer) as [[st' rc] call].
  cbv zeta. destruct (bytesread =? 0).
  - intros [= <-]. cbn. intros Hs Hw.
    rewrite andb_true_r in Hs, Hw.
    apply Z.eqb_eq in Hw. apply to_size_t_of_count in Hs.
    rewrite Hw, Hs. f_equal. ring.
  - destruct (stream_loop fuel W wp mp st' rest _ (S k)) as [r'|] eqn:E; [|discriminate].
    intros [= <-]. cbn. intros Hs Hw.
    apply andb_prop in Hs as [Hs Hs'], Hw as [Hw Hw'].
    apply Z.eqb_eq in Hw. apply to_size_t_of_count in Hs.
    rewrite (IH _ _ _ _ _ _ _ _ E Hs' Hw'), Hw, Hs. f_equal. unfold sum. ring.
Qed.

(** ** [encode_wav2mp3] as a whole *)

(** Once both files are open the function streams, flushes once, closes
    the session and returns [EXIT_SUCCESS], whatever the codec and the
    destination answered. *)
Lemma encode_wav2mp3_opened (W : world) (wp mp : string) (wavfile : list Z) :
  wav_files W wp = Some wavfile ->
  mp3_writable W mp = true ->
  exists r, encode_wav2mp3 W wp mp = Some r /\
    exit_code r = EXIT_SUCCESS /\ closed (events r) = true /\
    streamed (events r) = true /\ List.length (flush_returns (events r)) = 1%nat.
Proof.
  intros Hw Hm. unfold encode_wav2mp3. rewrite Hw, Hm.
  destruct (lame_init_params (lame W) (lame_init (lame W))) as [st rc].
  destruct (stream_loop_total (S (List.length wavfile)) W wp mp st wavfile 0 0
              (Nat.lt_succ_diag_r _)) as [r Hr].
  rewrite Hr. eexists; split; [reflexivity|].
  apply stream_loop_exit in Hr as (He & Hc & Hs & Hf).
  destruct (rc <? 0); cbn; rewrite ?Hc, ?Hs, ?orb_true_r; auto.
Qed.

(** When one of the two [fopen] calls fails the function returns
    [EXIT_FAILURE] before the loop, and does not close the session. *)
Lemma encode_wav2mp3_not_opened (W : world) (wp mp : string) :
  wav_files W wp = None \/ mp3_writable W mp = false ->
  exists r, encode_wav2mp3 W wp mp = Some r /\
    exit_code r = EXIT_FAILURE /\ closed (events r) = false /\
    streamed (events r) = false /\ encode_returns (events r) = [] /\
    flush_returns (events r) = [].
Proof.
  intros H. unfold encode_wav2mp3.
  destruct (lame_init_params (lame W) (lame_init (lame W))) as [st rc].
  destruct (wav_files W wp) as [wavfile|].
  - destruct H as [H|H]; [discriminate|]. rewrite H.
    eexists; split; [reflexivity|]. destruct (rc <? 0); cbn; auto.
  - eexists; split; [reflexivity|]. destruct (rc <? 0); cbn; auto.
Qed.

(** The session is closed on the successful return and on no other. *)
Lemma lame_close_iff_success (W : world) (wp mp : string) (r : result) :
  encode_wav2mp3 W wp mp = Some r ->
  (closed (events r) = true <-> exit_code r = EXIT_SUCCESS).
Proof.
  intros Hr.
  destruct (wav_files W wp) as [wavfile|] eqn:Hw.
  - destruct (mp3_writable W mp) eqn:Hm.
    + destruct (encode_wav2mp3_opened W wp mp wavfile Hw Hm) as (r' & Hr' & He & Hc & _).
      rewrite Hr in Hr'. injection Hr' as <-. tauto.
    + destruct (encode_wav2mp3_not_opened W wp mp (or_intror Hm)) as (r' & Hr' & He & Hc & _).
      rewrite Hr in Hr'. injection Hr' as <-. rewrite He, Hc.
      split; discriminate.
  - destruct (encode_wav2mp3_not_opened W wp mp (or_introl Hw)) as (r' & Hr' & He & Hc & _).
    rewrite Hr in Hr'. injection Hr' as <-. rewrite He, Hc.
    split; discriminate.
Qed.

(** The branch that logs "ERROR during encoding" is dead code. *)
Lemma encoding_error_never_logged (W : world) (wp mp : string) (r : result) :
  encode_wav2mp3 W wp mp = Some r ->
  forall byteswrote, ~ In (EvErrEncoding byteswrote) (events r).
Proof.
  assert (Hloop : forall fuel (st : lame_state (lame W)) wavfile len k r',
             stream_loop fuel W wp mp st wavfile len k = Some r' ->
             forall b, ~ In (EvErrEncoding b) (events r')).
  { induction fuel as [|fuel IH]; intros st wavfile len k r'; [discriminate|].
    rewrite stream_loop_unfold.
    destruct (fread wavfile) as [[bytesread wav_buffer] rest].
    destruct (encode_block W st bytesread wav_buffer) as [[st' rc] call].
    cbv zeta. destruct (bytesread =? 0).
    - intros [= <-] b. cbn. intros H. repeat destruct H as [H|H]; try discriminate; auto.
    - destruct (stream_loop fuel W wp mp st' rest _ (S k)) as [r''|] eqn:E; [|discriminate].
      intros [= <-] b. cbn. intros H.
      repeat (destruct H as [H|H]; [discriminate|]).
      exact (IH _ _ _ _ _ E b H). }
  unfold encode_wav2mp3.
  destruct (lame_init_params (lame W) (lame_init (lame W))) as [st rc].
  destruct (wav_files W wp) as [wavfile|].
  - destruct (mp3_writable W mp).
    + destruct (stream_loop _ W wp mp st wavfile 0 0) as [r'|] eqn:E; [|discriminate].
      intros [= <-] b. specialize (Hloop _ _ _ _ _ _ E b).
      destruct (rc <? 0); cbn; intros H;
        repeat (destruct H as [H|H]; [discriminate|]); auto.
    + intros [= <-] b. destruct (rc <? 0); cbn; intros H;
        repeat destruct H as [H|H]; try discriminate; auto.
  - intros [= <-] b. destruct (rc <? 0); cbn; intros H;
      repeat destruct H as [H|H]; try discriminate; auto.
Qed.

(** ** The claims about one job *)

(** C2 (violated by the code): an encoder call that returns a negative
    int does not fail the job.  The int is stored in the unsigned
    [byteswrote], so the test [byteswrote < 0] is false; with a codec that
    answers -1 for the block, the function goes on to [fwrite] an item of
    [SIZE_MAX] bytes, reads on, flushes and returns [EXIT_SUCCESS]. *)
Theorem negative_encode_result_not_detected :
  encode_wav2mp3 world_encode_error "d/a.wav" "d/a.mp3" =
  Some {| exit_code := EXIT_SUCCESS;
          mp3_bytes := Some (MP3_SIZE + 7);
          events := [EvLameInit; EvLameInitParams 0;
                     EvFopen "d/a.wav" true; EvFopen "d/a.mp3" true;
                     EvFread 2; EvLameEncodeBuffer 2 (-1);
                     EvFwrite SIZE_MAX MP3_SIZE;
                     EvFread 0; EvLameEncodeFlush 7; EvFwrite 7 7;
                     EvLameClose; EvFclose "d/a.wav"; EvFclose "d/a.mp3"] |}.
Proof. vm_compute. reflexivity. Qed.

(** C4 (violated by the code): a failure of [lame_init_params] is logged
    and nothing else; the job opens both files, enters the streaming loop,
    reads and encodes a block, and returns [EXIT_SUCCESS]. *)
Theorem init_failure_enters_streaming :
  encode_wav2mp3 world_init_error "d/a.wav" "d/a.mp3" =
  Some {| exit_code := EXIT_SUCCESS;
          mp3_bytes := Some 17;
          events := [EvLameInit; EvLameInitParams (-1); EvErrInitParams;
                     EvFopen "d/a.wav" true; EvFopen "d/a.mp3" true;
                     EvFread 2; EvLameEncodeBuffer 2 10; EvFwrite 10 10;
                     EvFread 0; EvLameEncodeFlush 7; EvFwrite 7 7;
                     EvLameClose; EvFclose "d/a.wav"; EvFclose "d/a.mp3"] |}.
Proof. vm_compute. reflexivity. Qed.

(** C5 (violated by the code): with the session opened
    ([lame_init_params] returned 0) and a source that cannot be opened,
    the function returns [EXIT_FAILURE] without calling [lame_close]. *)
Theorem failure_return_leaves_session_open :
  exists r,
    encode_wav2mp3 world_unreadable "d/c.wav" "d/c.mp3" = Some r /\
    exit_code r = EXIT_FAILURE /\
    events r = [EvLameInit; EvLameInitParams 0;
                EvFopen "d/c.wav" false; EvErrOpenWav "d/c.wav"] /\
    closed (events r) = false.
Proof.
  eexists. split; [vm_compute; reflexivity|]. vm_compute. repeat split.
Qed.

(** C8 (as amended): for a job whose source is a valid stereo PCM stream
    and whose files both open, [encode_wav2mp3] returns; if every codec
    call succeeded and every [fwrite] landed in full, the destination
    holds exactly the bytes returned by the [lame_encode_buffer] calls plus
    those returned by the one [lame_encode_flush] call, and it is non-empty
    exactly when that sum is positive. *)
Theorem destination_length_is_sum_of_returns
    (W : world) (wp mp : string) (wavfile : list Z) :
  wav_files W wp = Some wavfile ->
  mp3_writable W mp = true ->
  valid_stereo_pcm wavfile = true ->
  exists r, encode_wav2mp3 W wp mp = Some r /\
    (calls_succeeded (events r) = true ->
     writes_complete (events r) = true ->
     exists f n,
       flush_returns (events r) = [f] /\
       mp3_bytes r = Some n /\
       n = sum (encode_returns (events r)) + f /\
       (0 < n <-> 0 < sum (encode_returns (events r)) + f)).
Proof.
  intros Hw Hm _. unfold encode_wav2mp3. rewrite Hw, Hm.
  destruct (lame_init_params (lame W) (lame_init (lame W))) as [st rc].
  destruct (stream_loop_total (S (List.length wavfile)) W wp mp st wavfile 0 0
              (Nat.lt_succ_diag_r _)) as [r Hr].
  rewrite Hr. eexists; split; [reflexivity|].
  pose proof (stream_loop_exit _ _ _ _ _ _ _ _ _ Hr) as (_ & _ & _ & Hf).
  pose proof (stream_loop_accounting _ _ _ _ _ _ _ _ _ Hr) as Ha.
  destruct (rc <? 0); cbn; intros Hs Hc;
    specialize (Ha Hs Hc);
    destruct (flush_returns (events r)) as [|f [|]]; try discriminate;
    exists f, (sum (encode_returns (events r)) + f);
    (split; [reflexivity|]); (split; [|split; [reflexivity|tauto]]);
    rewrite Ha; unfold sum; cbn; f_equal; ring.
Qed.

Lemma destination_length_is_sum_of_returns_witness :
  exists r, encode_wav2mp3 world_ok "d/a.wav" "d/a.mp3" = Some r /\
    calls_succeeded (events r) = true /\
    writes_complete (events r) = true /\
    encode_returns (events r) = [10] /\
    flush_returns (events r) = [7] /\
    mp3_bytes r = Some 17.
Proof.
  destruct (destination_length_is_sum_of_returns world_ok "d/a.wav" "d/a.mp3"
              two_frames eq_refl eq_refl eq_refl) as (r & Hr & H).
  exists r. split; [exact Hr|].
  vm_compute in Hr. injection Hr as <-.
  destruct (H eq_refl eq_refl) as (f & n & Hf & Hn & Hsum & _).
  vm_compute in Hf. injection Hf as <-.
  rewrite Hn, Hsum. repeat split.
Defined.

(** C8 as stated fails twice over.  On a full disk the codec calls
    succeed (10 and 7 bytes) and the destination stays empty; and with a
    codec that returns 0 for every call the destination is empty although
    every write landed. *)
Lemma destination_length_counterexample :
  (exists r, encode_wav2mp3 world_disk_full "d/a.wav" "d/a.mp3" = Some r /\
     valid_stereo_pcm two_frames = true /\
     calls_succeeded (events r) = true /\
     sum (encode_returns (events r)) + sum (flush_returns (events r)) = 17 /\
     mp3_bytes r = Some 0) /\
  (exists r, encode_wav2mp3 world_silent "d/a.wav" "d/a.mp3" = Some r /\
     valid_stereo_pcm two_frames = true /\
     calls_succeeded (events r) = true /\
     writes_complete (events r) = true /\
     mp3_bytes r = Some 0).
Proof.
  split; eexists; (split; [vm_compute; reflexivity|]); vm_compute; repeat split.
Qed.

(** ** The machine *)

Lemma run_invariant (W : world) (P : state -> Prop) :
  (forall c s, P s -> P (step W c s)) ->
  forall schedule s, P s -> P (run W schedule s).
Proof.
  intros Hstep. induction schedule as [|c schedule IH]; intros s Hs; cbn; auto.
Qed.

(** A thread never touches [numcores] or the position of [main], and it
    never raises the counter. *)
Lemma threadFunction_frame (W : world) (tid : nat) (locked : bool) (s : state) :
  numcores (threadFunction W tid locked s) = numcores s /\
  pc (threadFunction W tid locked s) = pc s /\
  numthreads (threadFunction W tid locked s) <= numthreads s /\
  (0 <= numthreads s -> 0 <= numthreads (threadFunction W tid locked s)).
Proof.
  unfold threadFunction.
  destruct (nth_error (threads s) tid) as [[p|p|p|code]|]; cbn;
    try (repeat split; (reflexivity || lia)).
  - destruct (encode_wav2mp3 W (wavfile_path p) (mp3file_path p)); cbn;
      repeat split; (reflexivity || lia).
  - destruct locked; cbn; [|repeat split; (reflexivity || lia)].
    unfold decrement. destruct (numthreads s >? 0) eqn:E; cbn;
      repeat split; (reflexivity || lia).
Qed.

Lemma main_step_numcores (ok : bool) (s : state) :
  numcores (main_step ok s) = numcores s.
Proof.
  unfold main_step.
  destruct (pc s) as [[|d_name entries]|p entries|entries| | |]; cbn; auto.
  - destruct (strcmp_is_zero (strrchr d_name ".") ".wav") as [[|]|]; cbn; auto.
    destruct (build_params (with_slash (path s)) d_name); cbn; auto.
  - destruct (numthreads s >=? numcores s); [|destruct ok]; cbn; auto.
  - destruct ok; cbn; auto.
  - destruct (numthreads s >? 0); cbn; auto.
Qed.

Lemma step_numcores (W : world) (c : choice) (s : state) :
  numcores (step W c s) = numcores s.
Proof.
  destruct c as [ok|tid locked]; cbn.
  - apply main_step_numcores.
  - apply threadFunction_frame.
Qed.

(** [main] raises the counter at [MIncrement] only, and arrives there
    only from the poll loop, having read a counter below the limit. *)
Lemma main_step_increment (ok : bool) (s : state) :
  numthreads s < numthreads (main_step ok s) ->
  exists entries, pc s = MIncrement entries.
Proof.
  unfold main_step.
  destruct (pc s) as [[|d_name entries]|p entries|entries| | |]; cbn; try lia.
  - destruct (strcmp_is_zero (strrchr d_name ".") ".wav") as [[|]|]; cbn; try lia.
    destruct (build_params (with_slash (path s)) d_name); cbn; lia.
  - destruct (numthreads s >=? numcores s); [|destruct ok]; cbn; lia.
  - eauto.
  - destruct (numthreads s >? 0); cbn; lia.
Qed.

Lemma main_step_enters_increment (ok : bool) (s : state) (entries : list string) :
  pc (main_step ok s) = MIncrement entries ->
  (exists p, pc s = MPoll p entries) /\
  numthreads s < numcores s /\
  numthreads (main_step ok s) = numthreads s.
Proof.
  unfold main_step.
  destruct (pc s) as [[|d_name es]|p es|es| | |] eqn:Hpc; cbn; try discriminate.
  - destruct (strcmp_is_zero (strrchr d_name ".") ".wav") as [[|]|]; cbn; try discriminate.
    destruct (build_params (with_slash (path s)) d_name); cbn; discriminate.
  - destruct (numthreads s >=? numcores s) eqn:E; [|destruct ok]; cbn; try discriminate.
    intros [= <-]. rewrite Z.geb_leb in E. apply Z.leb_gt in E. eauto.
  - destruct ok; cbn; discriminate.
  - destruct (numthreads s >? 0); cbn; discriminate.
  - intros H. rewrite Hpc in H. discriminate.
  - intros H. rewrite Hpc in H. discriminate.
Qed.

Lemma main_step_counter_inv (ok : bool) (s : state) :
  counter_inv s -> counter_inv (main_step ok s).
Proof.
  intros [Hb Hi]. split.
  - destruct (Z_lt_le_dec (numthreads s) (numthreads (main_step ok s))) as [Hlt|Hle].
    + destruct (main_step_increment ok s Hlt) as [entries Hpc].
      specialize (Hi entries Hpc).
      unfold main_step. rewrite Hpc. destruct ok; cbn; lia.
    + rewrite main_step_numcores.
      assert (0 <= numthreads (main_step ok s)); [|lia].
      unfold main_step.
      destruct (pc s) as [[|d_name entries]|p entries|entries| | |]; cbn; try lia.
      * destruct (strcmp_is_zero (strrchr d_name ".") ".wav") as [[|]|]; cbn; try lia.
        destruct (build_params (with_slash (path s)) d_name); cbn; lia.
      * destruct (numthreads s >=? numcores s); [|destruct ok]; cbn; lia.
      * destruct ok; cbn; lia.
      * destruct (numthreads s >? 0); cbn; lia.
  - intros entries Hpc.
    destruct (main_step_enters_increment ok s entries Hpc) as (_ & Hlt & Heq).
    rewrite Heq, main_step_numcores. exact Hlt.
Qed.

Lemma step_counter_inv (W : world) (c : choice) (s : state) :
  counter_inv s -> counter_inv (step W c s).
Proof.
  destruct c as [ok|tid locked]; cbn.
  - apply main_step_counter_inv.
  - intros [Hb Hi].
    destruct (threadFunction_frame W tid locked s) as (Hc & Hpc & Hle & Hge).
    split.
    + rewrite Hc. lia.
    + intros entries H. rewrite Hpc in H. rewrite Hc.
      specialize (Hi entries H). lia.
Qed.

Lemma main_numcores (W : world) (argv : list string) (s0 : state) :
  main W argv = inr s0 ->
  numcores s0 = nprocessors W /\ numthreads s0 = 0 /\
  threads s0 = [] /\ history s0 = [] /\
  exists entries, pc s0 = MReaddir entries.
Proof.
  unfold main.
  destruct argv as [|a0 [|dir [|]]]; try discriminate.
  destruct (dir_entries W dir) as [entries|]; [|discriminate].
  intros [= <-]. cbn. eauto 6.
Qed.

Lemma reachable_counter_inv (W : world) (argv : list string) (s : state) :
  reachable W argv s -> counter_inv s /\ numcores s = nprocessors W.
Proof.
  intros (s0 & schedule & Hmain & <-).
  destruct (main_numcores W argv s0 Hmain) as (Hc & Hn & _ & _ & entries & Hpc).
  split.
  - apply run_invariant; [apply step_counter_inv|].
    split; [lia|]. intros es H. rewrite Hpc in H. discriminate.
  - rewrite <- Hc.
    apply (run_invariant W (fun s => numcores s = numcores s0)); auto.
    intros c s H. rewrite step_numcores. exact H.
Qed.

Lemma step_idle_inv (W : world) (c : choice) (s : state) :
  numcores s <= 0 -> idle_inv s -> idle_inv (step W c s).
Proof.
  intros Hc (Ht & Hn & Hh & Hpc). destruct c as [ok|tid locked]; cbn.
  - unfold main_step, idle_inv.
    destruct (pc s) as [[|d_name entries]|p entries|entries| | |] eqn:E; cbn.
    + repeat split; auto; discriminate.
    + destruct (strcmp_is_zero (strrchr d_name ".") ".wav") as [[|]|]; cbn;
        [destruct (build_params (with_slash (path s)) d_name); cbn| |];
        repeat split; auto; discriminate.
    + replace (numthreads s >=? numcores s) with true
        by (symmetry; rewrite Z.geb_leb; apply Z.leb_le; lia).
      cbn. repeat split; auto; discriminate.
    + destruct (Hpc entries eq_refl).
    + rewrite Hn. cbn. repeat split; auto; discriminate.
    + rewrite E. repeat split; auto; discriminate.
    + rewrite E. repeat split; auto; discriminate.
  - unfold threadFunction. rewrite Ht.
    destruct tid; cbn; repeat split; auto.
Qed.

Lemma step_stuck_in_drain (W : world) (c : choice) (s : state) :
  stuck_in_drain s -> stuck_in_drain (step W c s).
Proof.
  intros (Hpc & Hn & Ht & Hh). destruct c as [ok|tid locked]; cbn.
  - unfold main_step, stuck_in_drain. rewrite Hpc, Hn. cbn. auto.
  - unfold threadFunction. rewrite Ht.
    destruct tid as [|[|tid]]; cbn; repeat split; auto.
Qed.

Lemma step_crashed (W : world) (c : choice) (s : state) :
  pc s = MCrashed /\ threads s = [] ->
  pc (step W c s) = MCrashed /\ threads (step W c s) = [].
Proof.
  intros [Hpc Ht]. destruct c as [ok|tid locked]; cbn.
  - unfold main_step. rewrite Hpc. auto.
  - unfold threadFunction. rewrite Ht. destruct tid; cbn; auto.
Qed.

Lemma nth_error_set_thread (tid : nat) (w x : worker) (ts : list worker) :
  nth_error ts tid = Some x -> nth_error (set_thread tid w ts) tid = Some w.
Proof.
  revert tid. induction ts as [|t ts IH]; intros [|tid]; cbn; try discriminate; auto.
Qed.

(** A thread whose encode call returned [EXIT_SUCCESS] runs to
    [pthread_exit( EXIT_SUCCESS )] and prints the END line. *)
Lemma worker_success_path (W : world) (s : state) (tid : nat) (p : threadParams)
    (r : result) :
  nth_error (threads s) tid = Some (WBegin p) ->
  encode_wav2mp3 W (wavfile_path p) (mp3file_path p) = Some r ->
  exit_code r = EXIT_SUCCESS ->
  nth_error (threads (run W (thread_to_end tid) s)) tid = Some (WExited EXIT_SUCCESS) /\
  In (AEndLine tid p) (history (run W (thread_to_end tid) s)).
Proof.
  intros Hn Hr He. unfold thread_to_end. cbn [run step].
  assert (H1 : nth_error (threads (threadFunction W tid true s)) tid
               = Some (WDecrement p)).
  { unfold threadFunction. rewrite Hn, Hr, He. cbn.
    eapply nth_error_set_thread; eauto. }
  set (s1 := threadFunction W tid true s) in *.
  assert (H2 : nth_error (threads (threadFunction W tid true s1)) tid
               = Some (WFinish p)).
  { unfold threadFunction. rewrite H1.
    destruct (decrement tid (numthreads s1)). cbn.
    eapply nth_error_set_thread; eauto. }
  set (s2 := threadFunction W tid true s1) in *.
  unfold threadFunction at 1 2. rewrite H2. cbn. split.
  - eapply nth_error_set_thread; eauto.
  - auto.
Qed.

(** A thread whose encode call failed exits at once: the counter and
    the position of [main] are as before, and nothing it does later
    changes the state. *)
Lemma worker_failure_path (W : world) (s : state) (tid : nat) (p : threadParams)
    (r : result) (locked : bool) :
  nth_error (threads s) tid = Some (WBegin p) ->
  encode_wav2mp3 W (wavfile_path p) (mp3file_path p) = Some r ->
  exit_code r <> EXIT_SUCCESS ->
  let s' := threadFunction W tid locked s in
  nth_error (threads s') tid = Some (WExited EXIT_FAILURE) /\
  numthreads s' = numthreads s /\
  count_decrements (history s') = count_decrements (history s) /\
  forall locked', threadFunction W tid locked' s' = s'.
Proof.
  intros Hn Hr He. cbv zeta.
  assert (H1 : nth_error (threads (threadFunction W tid locked s)) tid
               = Some (WExited EXIT_FAILURE)).
  { unfold threadFunction. rewrite Hn, Hr.
    apply Z.eqb_neq in He. rewrite He. cbn.
    eapply nth_error_set_thread; eauto. }
  split; [exact H1|].
  split; [|split].
  - unfold threadFunction. rewrite Hn, Hr. reflexivity.
  - unfold threadFunction. rewrite Hn, Hr. destruct locked; reflexivity.
  - intros locked'. unfold threadFunction at 1. rewrite H1. reflexivity.
Qed.

(** An entry with a dot whose last segment is not [.wav] is skipped with
    the "not a wave file" line: no parameters are built, no thread is
    created and the counter is left alone. *)
Lemma other_extension_skipped (ok : bool) (s : state) (d_name ext : string)
    (entries : list string) :
  pc s = MReaddir (d_name :: entries) ->
  strrchr d_name "." = Some ext ->
  ext <> ".wav"%string ->
  let s' := main_step ok s in
  pc s' = MReaddir entries /\ history s' = ASkip d_name :: history s /\
  threads s' = threads s /\ numthreads s' = numthreads s.
Proof.
  intros Hpc Hext Hne. cbv zeta. unfold main_step. rewrite Hpc, Hext. cbn.
  apply String.eqb_neq in Hne. rewrite Hne. cbn. auto.
Qed.

(** ** The claim about the dropped write result *)

(** C10: the value [fwrite] returns is dropped.  Whatever the destination
    does with the items, [encode_wav2mp3] returns the same status; and
    when both files opened and every codec call succeeded, that status is
    [EXIT_SUCCESS] and the thread running the job goes on to print its
    "has encoded ... succesfully" line and exits with [EXIT_SUCCESS]. *)
Theorem destination_write_result_ignored
    (W : world) (d : string -> nat -> Z -> Z) (p : threadParams) :
  exists r r',
    encode_wav2mp3 W (wavfile_path p) (mp3file_path p) = Some r /\
    encode_wav2mp3 (with_disk W d) (wavfile_path p) (mp3file_path p) = Some r' /\
    exit_code r' = exit_code r /\
    (forall wavfile,
       wav_files W (wavfile_path p) = Some wavfile ->
       mp3_writable W (mp3file_path p) = true ->
       calls_succeeded (events r') = true ->
       exit_code r' = EXIT_SUCCESS /\
       forall s tid,
         nth_error (threads s) tid = Some (WBegin p) ->
         let s' := run (with_disk W d) (thread_to_end tid) s in
         nth_error (threads s') tid = Some (WExited EXIT_SUCCESS) /\
         In (AEndLine tid p) (history s')).
Proof.
  destruct (wav_files W (wavfile_path p)) as [wavfile|] eqn:Hw.
  - destruct (mp3_writable W (mp3file_path p)) eqn:Hm.
    + destruct (encode_wav2mp3_opened W _ _ wavfile Hw Hm) as (r & Hr & He & _).
      destruct (encode_wav2mp3_opened (with_disk W d) _ _ wavfile Hw Hm)
        as (r' & Hr' & He' & _).
      exists r, r'. do 3 (split; [assumption || congruence|]).
      intros wavfile' _ _ _. split; [exact He'|].
      intros s tid Hn. exact (worker_success_path _ s tid p r' Hn Hr' He').
    + destruct (encode_wav2mp3_not_opened W (wavfile_path p) (mp3file_path p)
                  (or_intror Hm)) as (r & Hr & He & _).
      destruct (encode_wav2mp3_not_opened (with_disk W d) (wavfile_path p)
                  (mp3file_path p) (or_intror Hm)) as (r' & Hr' & He' & _).
      exists r, r'. do 3 (split; [assumption || congruence|]).
      intros wavfile' _ H. discriminate.
  - destruct (encode_wav2mp3_not_opened W (wavfile_path p) (mp3file_path p)
                (or_introl Hw)) as (r & Hr & He & _).
    destruct (encode_wav2mp3_not_opened (with_disk W d) (wavfile_path p)
                (mp3file_path p) (or_introl Hw)) as (r' & Hr' & He' & _).
    exists r, r'. do 3 (split; [assumption || congruence|]).
    intros wavfile' H. discriminate.
Qed.

Lemma destination_write_result_ignored_witness :
  exists r',
    encode_wav2mp3 (with_disk world_ok nothing_lands) "d/a.wav" "d/a.mp3" = Some r' /\
    calls_succeeded (events r') = true /\
    encode_returns (events r') = [10] /\
    flush_returns (events r') = [7] /\
    mp3_bytes r' = Some 0 /\
    exit_code r' = EXIT_SUCCESS /\
    nth_error (threads thread_created) 0 = Some (WBegin a_wav) /\
    let s' := run (with_disk world_ok nothing_lands) (thread_to_end 0) thread_created in
    nth_error (threads s') 0 = Some (WExited EXIT_SUCCESS) /\
    In (AEndLine 0 a_wav) (history s').
Proof.
  destruct (destination_write_result_ignored world_ok nothing_lands a_wav)
    as (r & r' & Hr & Hr' & Heq & H).
  exists r'. split; [exact Hr'|].
  assert (Hs : calls_succeeded (events r') = true).
  { vm_compute in Hr'. injection Hr' as <-. vm_compute. reflexivity. }
  assert (Hn : nth_error (threads thread_created) 0 = Some (WBegin a_wav))
    by (vm_compute; reflexivity).
  destruct (H two_frames ltac:(vm_compute; reflexivity)
              ltac:(vm_compute; reflexivity) Hs) as (He & Hpath).
  split; [exact Hs|].
  split; [vm_compute in Hr'; injection Hr' as <-; vm_compute; reflexivity|].
  split; [vm_compute in Hr'; injection Hr' as <-; vm_compute; reflexivity|].
  split; [vm_compute in Hr'; injection Hr' as <-; vm_compute; reflexivity|].
  split; [exact He|].
  split; [exact Hn|].
  exact (Hpath thread_created 0%nat Hn).
Defined.

(** ** The claims about the counter and the dispatcher *)

(** C1 (violated by the code): a thread whose job fails leaves through
    [pthread_exit( EXIT_FAILURE )] before the decrement.  With the
    unreadable [c.wav] as the only job, [main] increments once, the thread
    exits without decrementing, and from then on every interleaving keeps
    the counter at 1 and [main] inside the drain loop. *)
Theorem failed_worker_skips_decrement :
  main world_unreadable argv_d = inr (start 2 ["c.wav"%string]) /\
  let s := run world_unreadable schedule_failed_job (start 2 ["c.wav"%string]) in
  threads s = [WExited EXIT_FAILURE] /\
  pc s = MDrain /\
  numthreads s = 1 /\
  count_increments (history s) = 1%nat /\
  count_decrements (history s) = 0%nat /\
  forall schedule,
    let s' := run world_unreadable schedule s in
    pc s' = MDrain /\ numthreads s' = 1 /\ count_decrements (history s') = 0%nat.
Proof.
  split; [vm_compute; reflexivity|]. cbv zeta.
  do 5 (split; [vm_compute; reflexivity|]).
  intros schedule.
  assert (H : stuck_in_drain
                (run world_unreadable schedule_failed_job (start 2 ["c.wav"%string]))).
  { unfold stuck_in_drain. do 3 (split; [vm_compute; reflexivity|]).
    vm_compute; reflexivity. }
  destruct (run_invariant world_unreadable stuck_in_drain
              (step_stuck_in_drain world_unreadable) schedule _ H)
    as (H1 & H2 & _ & H3).
  auto.
Qed.

(** C3 (as amended): when the processor count the platform reports is
    not negative, no interleaving of [main] and the threads reaches a
    state whose counter exceeds the limit [numcores]; threads never raise
    the counter, and [main] raises it only at its increment, which it
    enters only from the poll loop after reading a counter below the
    limit. *)
Theorem counter_within_limit (W : world) (argv : list string) :
  0 <= nprocessors W ->
  (forall s, reachable W argv s ->
     numcores s = nprocessors W /\ numthreads s <= numcores s) /\
  (forall tid locked s,
     numthreads (threadFunction W tid locked s) <= numthreads s) /\
  (forall ok s, numthreads s < numthreads (main_step ok s) ->
     exists entries, pc s = MIncrement entries) /\
  (forall ok s entries, pc (main_step ok s) = MIncrement entries ->
     (exists p, pc s = MPoll p entries) /\ numthreads s < numcores s).
Proof.
  intros HL. split; [|split; [|split]].
  - intros s H. destruct (reachable_counter_inv W argv s H) as [[Hb _] Hc].
    split; [exact Hc|lia].
  - intros tid locked s. apply threadFunction_frame.
  - apply main_step_increment.
  - intros ok s entries H.
    destruct (main_step_enters_increment ok s entries H) as (Hp & Hlt & _). auto.
Qed.

Lemma counter_within_limit_witness :
  let s := run world_ok schedule_early_worker
             (start 2 ["."; ".."; "a.wav"; "notes.txt"]%string) in
  reachable world_ok argv_d s /\
  pc s = MIncrement ["notes.txt"%string] /\
  numcores s = nprocessors world_ok /\ numthreads s <= numcores s.
Proof.
  cbv zeta.
  assert (R : reachable world_ok argv_d
                (run world_ok schedule_early_worker
                   (start 2 ["."; ".."; "a.wav"; "notes.txt"]%string))).
  { exists (start 2 ["."; ".."; "a.wav"; "notes.txt"]%string), schedule_early_worker.
    split; [vm_compute; reflexivity|reflexivity]. }
  split; [exact R|]. split; [vm_compute; reflexivity|].
  assert (HL : 0 <= nprocessors world_ok) by (vm_compute; discriminate).
  exact (proj1 (counter_within_limit world_ok argv_d HL) _ R).
Defined.

(** C3 as stated fails when the processor-count query fails: the limit is
    then -1, and the first read of the counter in the poll loop sees 0,
    which exceeds it. *)
Lemma counter_exceeds_negative_limit :
  main world_no_cores argv_d = inr (start (-1) ["a.wav"%string]) /\
  let s := run world_no_cores [RunMain true; RunMain true]
             (start (-1) ["a.wav"%string]) in
  numcores s = -1 /\ numthreads s = 0 /\
  pc s = MPoll a_wav [] /\ history s = [ASleeping 0] /\
  ~ numthreads s <= numcores s.
Proof.
  split; [vm_compute; reflexivity|]. cbv zeta.
  do 4 (split; [vm_compute; reflexivity|]).
  vm_compute. intros H. apply H. reflexivity.
Qed.

(** C6: the decrement of a zero counter logs "numthreads !>0" and leaves
    the counter at zero, in the locked block itself and in the thread
    step that runs it; and in every state any interleaving reaches the
    counter is at least zero. *)
Theorem counter_never_negative :
  (forall tid, decrement tid 0 = (0, [ANotPositive tid])) /\
  (forall W tid p s,
     nth_error (threads s) tid = Some (WDecrement p) ->
     numthreads s = 0 ->
     numthreads (threadFunction W tid true s) = 0 /\
     history (threadFunction W tid true s) = ANotPositive tid :: history s) /\
  (forall W argv s, reachable W argv s -> 0 <= numthreads s).
Proof.
  split; [reflexivity|]. split.
  - intros W tid p s Hn H0. unfold threadFunction. rewrite Hn, H0. cbn. auto.
  - intros W argv s H. apply (reachable_counter_inv W argv s H).
Qed.

Lemma counter_never_negative_witness :
  let s := run world_ok schedule_early_worker
             (start 2 ["."; ".."; "a.wav"; "notes.txt"]%string) in
  reachable world_ok argv_d s /\
  nth_error (threads s) 0 = Some (WDecrement a_wav) /\
  numthreads s = 0 /\
  numthreads (threadFunction world_ok 0 true s) = 0 /\
  history (threadFunction world_ok 0 true s) = ANotPositive 0 :: history s /\
  0 <= numthreads s.
Proof.
  cbv zeta.
  assert (R : reachable world_ok argv_d
                (run world_ok schedule_early_worker
                   (start 2 ["."; ".."; "a.wav"; "notes.txt"]%string))).
  { exists (start 2 ["."; ".."; "a.wav"; "notes.txt"]%string), schedule_early_worker.
    split; [vm_compute; reflexivity|reflexivity]. }
  destruct counter_never_negative as (_ & Hstep & Hreach).
  split; [exact R|].
  split; [vm_compute; reflexivity|].
  split; [vm_compute; reflexivity|].
  split; [|split].
  - apply (Hstep world_ok 0%nat a_wav); vm_compute; reflexivity.
  - apply (Hstep world_ok 0%nat a_wav); vm_compute; reflexivity.
  - exact (Hreach world_ok argv_d _ R).
Defined.

(** C7 (as amended): the limit is the value the processor-count query
    returned, as it is; nothing replaces a failed query by 1.  It is at
    least 1 exactly when the query returned at least 1, and when it is
    zero or less (a failed query returns -1) no job is ever started: no
    thread is created and the counter is never incremented. *)
Theorem limit_is_reported_processor_count (W : world) (argv : list string) (s : state) :
  reachable W argv s ->
  numcores s = nprocessors W /\
  (1 <= numcores s <-> 1 <= nprocessors W) /\
  (nprocessors W <= 0 ->
   threads s = [] /\ numthreads s = 0 /\ count_increments (history s) = 0%nat).
Proof.
  intros H. destruct (reachable_counter_inv W argv s H) as [_ Hc].
  split; [exact Hc|]. split; [rewrite Hc; tauto|].
  intros HL. destruct H as (s0 & schedule & Hmain & <-).
  destruct (main_numcores W argv s0 Hmain) as (Hc0 & Hn & Ht & Hh & entries & Hpc).
  assert (I : numcores (run W schedule s0) <= 0 /\ idle_inv (run W schedule s0)).
  { apply (run_invariant W (fun s => numcores s <= 0 /\ idle_inv s)).
    - intros c s [H1 H2]. split.
      + rewrite step_numcores. exact H1.
      + apply step_idle_inv; assumption.
    - split; [lia|]. unfold idle_inv. rewrite Ht, Hn, Hh, Hpc.
      repeat split; auto. discriminate. }
  destruct I as (_ & I1 & I2 & I3 & _). auto.
Qed.

Lemma limit_is_reported_processor_count_witness :
  let s := run world_no_cores [RunMain true; RunMain true; RunMain true]
             (start (-1) ["a.wav"%string]) in
  reachable world_no_cores argv_d s /\
  history s = [ASleeping 0; ASleeping 0] /\
  numcores s = nprocessors world_no_cores /\
  threads s = [] /\ numthreads s = 0 /\
  count_increments (history s) = 0%nat.
Proof.
  cbv zeta.
  assert (R : reachable world_no_cores argv_d
                (run world_no_cores [RunMain true; RunMain true; RunMain true]
                   (start (-1) ["a.wav"%string]))).
  { exists (start (-1) ["a.wav"%string]), [RunMain true; RunMain true; RunMain true].
    split; [vm_compute; reflexivity|reflexivity]. }
  split; [exact R|]. split; [vm_compute; reflexivity|].
  destruct (limit_is_reported_processor_count world_no_cores argv_d _ R)
    as (Hc & _ & Hidle).
  split; [exact Hc|].
  apply Hidle. vm_compute. discriminate.
Defined.

(** C7 as stated fails: when [sysconf] returns -1 the limit [main] works
    with is -1, not 1. *)
Lemma limit_below_one :
  nprocessors world_no_cores = -1 /\
  main world_no_cores argv_d = inr (start (-1) ["a.wav"%string]) /\
  numcores (start (-1) ["a.wav"%string]) = -1 /\
  ~ 1 <= numcores (start (-1) ["a.wav"%string]).
Proof.
  do 3 (split; [vm_compute; reflexivity|]).
  vm_compute. intros H. apply H. reflexivity.
Qed.

(** C9 (violated by the code): for an entry without any dot, [strrchr]
    returns NULL and [strcmp] is called on it, which is undefined.  No
    "skipping" line is written, and in the model the run stops there:
    the entries after it, [a.wav] included, are never looked at. *)
Theorem entry_without_dot_is_not_skipped :
  main world_no_dot argv_d = inr (start 2 ["README"; "a.wav"]%string) /\
  strrchr "README" "." = None /\
  strcmp_is_zero (strrchr "README" ".") ".wav" = None /\
  let s := main_step true (start 2 ["README"; "a.wav"]%string) in
  pc s = MCrashed /\ history s = [] /\
  forall schedule,
    pc (run world_no_dot schedule s) = MCrashed /\
    threads (run world_no_dot schedule s) = [].
Proof.
  do 3 (split; [vm_compute; reflexivity|]). cbv zeta.
  do 2 (split; [vm_compute; reflexivity|]).
  intros schedule.
  apply (run_invariant world_no_dot
           (fun s => pc s = MCrashed /\ threads s = [])
           (step_crashed world_no_dot) schedule).
  split; vm_compute; reflexivity.
Qed.

(** * Further properties of the code *)

(** ** Reading and splitting a block *)

Lemma split_channels_spec (n : nat) :
  forall wav_buffer,
    (2 * n <= List.length wav_buffer)%nat ->
    List.length (fst (split_channels n wav_buffer)) = n /\
    List.length (snd (split_channels n wav_buffer)) = n /\
    forall i, (i < n)%nat ->
      nth i (fst (split_channels n wav_buffer)) 0 = nth (2 * i) wav_buffer 0 /\
      nth i (snd (split_channels n wav_buffer)) 0 = nth (2 * i + 1) wav_buffer 0.
Proof.
  induction n as [|n IH]; intros wav_buffer Hlen.
  - cbn. repeat split; lia.
  - destruct wav_buffer as [|l [|r rest]]; cbn in Hlen; try lia.
    specialize (IH rest ltac:(lia)). cbn [split_channels].
    destruct (split_channels n rest) as [ls rs]. cbn [fst snd] in *.
    destruct IH as (Hl & Hr & Hi). cbn [List.length].
    split; [lia|]. split; [lia|].
    intros [|i] Hlt.
    + cbn. auto.
    + replace (2 * S i)%nat with (S (S (2 * i))) by lia.
      cbn [nth Nat.add]. apply Hi. lia.
Qed.

(** X1: one [fread] followed by the copy loop.  The buffer and the unread
    rest make up the file again; at most [WAV_SIZE] frames are taken, and
    none only when less than one frame is left; both channel buffers get
    exactly that many samples, frame [i] giving sample [2i] of the stream
    to the left and sample [2i+1] to the right. *)
Theorem fread_then_split_channels (wavfile : list Z) :
  let '(bytesread, wav_buffer, rest) := fread wavfile in
  let (buffer_left, buffer_right) :=
    split_channels (Z.to_nat bytesread) wav_buffer in
  (wav_buffer ++ rest = wavfile) /\
  0 <= bytesread <= WAV_SIZE /\
  (bytesread = 0 <-> (List.length wavfile < 2)%nat) /\
  Z.of_nat (List.length wav_buffer) = 2 * bytesread /\
  Z.of_nat (List.length buffer_left) = bytesread /\
  Z.of_nat (List.length buffer_right) = bytesread /\
  forall i, (Z.of_nat i < bytesread) ->
    nth i buffer_left 0 = nth (2 * i) wavfile 0 /\
    nth i buffer_right 0 = nth (2 * i + 1) wavfile 0.
Proof.
  pose proof (fread_frames_bounds wavfile) as Hb.
  unfold fread in *. cbv zeta in *.
  set (n := Z.min WAV_SIZE (Z.of_nat (List.length wavfile) / 2)) in *.
  destruct Hb as [Hn Hlen].
  assert (Hbuf : List.length (firstn (Z.to_nat (2 * n)) wavfile) = Z.to_nat (2 * n)).
  { rewrite length_firstn. lia. }
  pose proof (split_channels_spec (Z.to_nat n) (firstn (Z.to_nat (2 * n)) wavfile)
                ltac:(lia)) as (Hl & Hr & Hi).
  destruct (split_channels (Z.to_nat n) (firstn (Z.to_nat (2 * n)) wavfile))
    as [buffer_left buffer_right].
  cbn [fst snd] in *.
  split; [apply firstn_skipn|].
  split; [exact Hn|].
  split.
  { subst n. unfold WAV_SIZE in *.
    pose proof (Z.div_small_iff (Z.of_nat (List.length wavfile)) 2 ltac:(lia)).
    split; intros; lia. }
  split; [lia|]. split; [lia|]. split; [lia|].
  intros i Hlt. destruct (Hi i ltac:(lia)) as [Hli Hri].
  rewrite Hli, Hri.
  split.
  - rewrite nth_firstn.
    destruct (Nat.ltb_spec (2 * i) (Z.to_nat (2 * n))); [reflexivity|lia].
  - rewrite nth_firstn.
    destruct (Nat.ltb_spec (2 * i + 1) (Z.to_nat (2 * n))); [reflexivity|lia].
Qed.

(** ** The shape of a streaming run *)


Lemma stream_loop_tail (fuel : nat) :
  forall W wp mp (st : lame_state (lame W)) wavfile len k r,
    stream_loop fuel W wp mp st wavfile len k = Some r ->
    exists pre rc landed,
      events r = pre ++ [EvFread 0; EvLameEncodeFlush rc;
                         EvFwrite (to_size_t rc) landed;
                         EvLameClose; EvFclose wp; EvFclose mp] /\
      flush_returns pre = [] /\ closed pre = false /\
      (forall p, fclosed p pre = false).
Proof.
  induction fuel as [|fuel IH]; intros W wp mp st wavfile len k r; [discriminate|].
  rewrite stream_loop_unfold.
  destruct (fread wavfile) as [[bytesread wav_buffer] rest].
  destruct (encode_block W st bytesread wav_buffer) as [[st' rc] call].
  cbv zeta. destruct (bytesread =? 0).
  - intros [= <-]. exists [], rc, (fwrite W mp k (to_size_t rc)). cbn. auto.
  - destruct (stream_loop fuel W wp mp st' rest _ (S k)) as [r'|] eqn:E; [|discriminate].
    intros [= <-]. apply IH in E as (pre & rc' & landed & He & Hf & Hc & Hp).
    exists ([EvFread bytesread; EvLameEncodeBuffer bytesread rc;
             EvFwrite (to_size_t rc) (fwrite W mp k (to_size_t rc))] ++ pre), rc', landed.
    cbn. rewrite He. cbn. auto.
Qed.

Lemma stream_loop_writes (fuel : nat) :
  forall W wp mp (st : lame_state (lame W)) wavfile len k r,
    stream_loop fuel W wp mp st wavfile len k = Some r ->
    each_call_written (events r) = true /\
    writes_within (events r) = true /\
    mp3_bytes r = Some (len + sum (fwrite_landed (events r))) /\
    List.length (fwrite_sizes (events r))
      = (List.length (encode_returns (events r)) + 1)%nat.
Proof.
  induction fuel as [|fuel IH]; intros W wp mp st wavfile len k r; [discriminate|].
  rewrite stream_loop_unfold.
  destruct (fread wavfile) as [[bytesread wav_buffer] rest].
  destruct (encode_block W st bytesread wav_buffer) as [[st' rc] call].
  cbv zeta.
  assert (Hw : (0 <=? fwrite W mp k (to_size_t rc))
               && (fwrite W mp k (to_size_t rc) <=? to_size_t rc) = true).
  { pose proof (to_size_t_nonneg rc). unfold fwrite.
    apply andb_true_intro. split; apply Z.leb_le; lia. }
  destruct (bytesread =? 0).
  - intros [= <-]. cbn. rewrite Z.eqb_refl, Hw. cbn.
    repeat split. f_equal. ring.
  - destruct (stream_loop fuel W wp mp st' rest _ (S k)) as [r'|] eqn:E; [|discriminate].
    intros [= <-]. apply IH in E as (Hc & Hin & Hm & Hl).
    unfold writes_within in *.
    cbn. rewrite Z.eqb_refl, Hw, Hc, Hin, Hm, Hl. cbn.
    repeat split. f_equal. unfold sum. cbn. ring.
Qed.

Lemma writes_within_sums (evs : list event) :
  writes_within evs = true ->
  0 <= sum (fwrite_landed evs) <= sum (fwrite_sizes evs).
Proof.
  unfold writes_within, sum.
  induction evs as [|e evs IH]; cbn; [lia|].
  intros H. apply andb_prop in H as [He H]. specialize (IH H).
  destruct e; cbn; try exact IH.
  apply andb_prop in He as [H0 H1]. apply Z.leb_le in H0, H1. lia.
Qed.

(** With both files open, the run is the log of the set-up followed by
    the run of the loop. *)
Lemma encode_wav2mp3_opened_run (W : world) (wp mp : string) (wavfile : list Z) :
  wav_files W wp = Some wavfile ->
  mp3_writable W mp = true ->
  exists rc err r',
    (err = [] \/ err = [EvErrInitParams]) /\
    stream_loop (S (List.length wavfile)) W wp mp
      (fst (lame_init_params (lame W) (lame_init (lame W)))) wavfile 0 0 = Some r' /\
    encode_wav2mp3 W wp mp =
      Some (prepend (EvLameInit :: EvLameInitParams rc :: err
                       ++ [EvFopen wp true; EvFopen mp true]) r').
Proof.
  intros Hw Hm. unfold encode_wav2mp3. rewrite Hw, Hm.
  destruct (lame_init_params (lame W) (lame_init (lame W))) as [st rc]. cbn [fst].
  destruct (stream_loop_total (S (List.length wavfile)) W wp mp st wavfile 0 0
              (Nat.lt_succ_diag_r _)) as [r' Hr'].
  rewrite Hr'. exists rc, (if rc <? 0 then [EvErrInitParams] else []), r'.
  split; [destruct (rc <? 0); auto|]. split; reflexivity.
Qed.



(** X3: with both files open, the run ends with the empty read, the one
    [lame_encode_flush], the write of its output, [lame_close] and the
    [fclose] of source and destination, in that order; before that point
    there is no flush, and neither the session nor a file is closed. *)
Theorem run_ends_with_flush_and_close (W : world) (wp mp : string) (wavfile : list Z) :
  wav_files W wp = Some wavfile ->
  mp3_writable W mp = true ->
  exists r pre rc landed,
    encode_wav2mp3 W wp mp = Some r /\
    events r = pre ++ [EvFread 0; EvLameEncodeFlush rc;
                       EvFwrite (to_size_t rc) landed;
                       EvLameClose; EvFclose wp; EvFclose mp] /\
    flush_returns pre = [] /\ closed pre = false /\
    (forall p, fclosed p pre = false).
Proof.
  intros Hw Hm.
  destruct (encode_wav2mp3_opened_run W wp mp wavfile Hw Hm)
    as (rc0 & err & r' & Herr & Hr' & ->).
  apply stream_loop_tail in Hr' as (pre & rc & landed & He & Hf & Hc & Hp).
  exists (prepend (EvLameInit :: EvLameInitParams rc0 :: err
                     ++ [EvFopen wp true; EvFopen mp true]) r'),
    ((EvLameInit :: EvLameInitParams rc0 :: err
        ++ [EvFopen wp true; EvFopen mp true]) ++ pre), rc, landed.
  split; [reflexivity|]. split.
  - cbn [events prepend]. rewrite He, app_assoc. reflexivity.
  - destruct Herr as [-> | ->]; cbn; auto.
Qed.

Lemma run_ends_with_flush_and_close_witness :
  exists r pre landed,
    encode_wav2mp3 world_ok "d/a.wav" "d/a.mp3" = Some r /\
    events r = pre ++ [EvFread 0; EvLameEncodeFlush 7; EvFwrite 7 landed;
                       EvLameClose; EvFclose "d/a.wav"; EvFclose "d/a.mp3"] /\
    flush_returns pre = [].
Proof.
  destruct (run_ends_with_flush_and_close world_ok "d/a.wav" "d/a.mp3" two_frames
              ltac:(vm_compute; reflexivity) ltac:(vm_compute; reflexivity))
    as (r & pre & rc & landed & Hr & He & Hf & _).
  exists r, pre, landed. split; [exact Hr|].
  assert (Hrc : flush_returns (events r) = [rc]).
  { rewrite He. clear - Hf. induction pre as [|e pre IH]; [reflexivity|].
    destruct e; cbn in *; try discriminate; auto. }
  vm_compute in Hr. injection Hr as <-.
  vm_compute in Hrc. injection Hrc as <-.
  split; [exact He|exact Hf].
Defined.

(** X4: whatever the codec returns, error codes included, the int goes
    to [fwrite] as the item size: every [lame_encode_buffer] and
    [lame_encode_flush] call is followed at once by an [fwrite] of
    [(size_t) result] bytes, and there is one write per block plus one for
    the flush when the files opened, none otherwise. *)
Theorem codec_result_always_written (W : world) (wp mp : string) :
  exists r, encode_wav2mp3 W wp mp = Some r /\
    each_call_written (events r) = true /\
    List.length (fwrite_sizes (events r))
      = (List.length (encode_returns (events r))
         + List.length (flush_returns (events r)))%nat.
Proof.
  destruct (wav_files W wp) as [wavfile|] eqn:Hw;
    [destruct (mp3_writable W mp) eqn:Hm|].
  - destruct (encode_wav2mp3_opened_run W wp mp wavfile Hw Hm)
      as (rc & err & r' & Herr & Hr' & ->).
    eexists; split; [reflexivity|].
    pose proof (stream_loop_exit _ _ _ _ _ _ _ _ _ Hr') as (_ & _ & _ & Hf).
    apply stream_loop_writes in Hr' as (Hc & _ & _ & Hl).
    destruct Herr as [-> | ->]; cbn; rewrite Hc, Hl, Hf; auto.
  - unfold encode_wav2mp3. rewrite Hw, Hm.
    destruct (lame_init_params (lame W) (lame_init (lame W))) as [st rc].
    eexists; split; [reflexivity|]. destruct (rc <? 0); cbn; auto.
  - unfold encode_wav2mp3. rewrite Hw.
    destruct (lame_init_params (lame W) (lame_init (lame W))) as [st rc].
    eexists; split; [reflexivity|]. destruct (rc <? 0); cbn; auto.
Qed.

(** X5: the destination holds the bytes that landed and no others.  Each
    [fwrite] adds between nothing and its item, so the final length is the
    sum of what landed, at least 0 and at most the sum of the item sizes
    asked for. *)
Theorem destination_holds_what_landed (W : world) (wp mp : string) :
  exists r, encode_wav2mp3 W wp mp = Some r /\
    writes_within (events r) = true /\
    forall n, mp3_bytes r = Some n ->
      n = sum (fwrite_landed (events r)) /\
      0 <= n <= sum (fwrite_sizes (events r)).
Proof.
  destruct (wav_files W wp) as [wavfile|] eqn:Hw;
    [destruct (mp3_writable W mp) eqn:Hm|].
  - destruct (encode_wav2mp3_opened_run W wp mp wavfile Hw Hm)
      as (rc & err & r' & Herr & Hr' & ->).
    eexists; split; [reflexivity|].
    apply stream_loop_writes in Hr' as (_ & Hin & Hb & _).
    pose proof (writes_within_sums _ Hin) as Hs.
    unfold writes_within in *.
    destruct Herr as [-> | ->]; cbn; rewrite Hin, Hb;
      (split; [reflexivity|]); intros n [= <-]; unfold sum in *; cbn; lia.
  - unfold encode_wav2mp3. rewrite Hw, Hm.
    destruct (lame_init_params (lame W) (lame_init (lame W))) as [st rc].
    eexists; split; [reflexivity|].
    destruct (rc <? 0); cbn; (split; [reflexivity|discriminate]).
  - unfold encode_wav2mp3. rewrite Hw.
    destruct (lame_init_params (lame W) (lame_init (lame W))) as [st rc].
    eexists; split; [reflexivity|].
    destruct (rc <? 0); cbn; (split; [reflexivity|discriminate]).
Qed.

(** X6: the exit status of [encode_wav2mp3] is decided by the two [fopen]
    calls alone.  It is [EXIT_FAILURE] exactly when the source or the
    destination cannot be opened, and [EXIT_SUCCESS] otherwise, whatever
    [lame_init_params], the codec and the destination answer; the
    destination is left unopened exactly on the failure status. *)
Theorem exit_status_decided_by_fopen (W : world) (wp mp : string) :
  exists r, encode_wav2mp3 W wp mp = Some r /\
    (exit_code r = EXIT_FAILURE <->
       wav_files W wp = None \/ mp3_writable W mp = false) /\
    (exit_code r = EXIT_SUCCESS <->
       (exists wavfile, wav_files W wp = Some wavfile) /\ mp3_writable W mp = true) /\
    (mp3_bytes r = None <-> exit_code r = EXIT_FAILURE).
Proof.
  destruct (wav_files W wp) as [wavfile|] eqn:Hw;
    [destruct (mp3_writable W mp) eqn:Hm|].
  - destruct (encode_wav2mp3_opened_run W wp mp wavfile Hw Hm)
      as (rc & err & r' & Herr & Hr' & ->).
    eexists; split; [reflexivity|].
    pose proof (stream_loop_exit _ _ _ _ _ _ _ _ _ Hr') as (He & _).
    apply stream_loop_writes in Hr' as (_ & _ & Hb & _).
    cbn [exit_code mp3_bytes prepend]. rewrite He, Hb.
    unfold EXIT_SUCCESS, EXIT_FAILURE.
    repeat split; try discriminate; eauto; intros [H|H]; discriminate.
  - unfold encode_wav2mp3. rewrite Hw, Hm.
    destruct (lame_init_params (lame W) (lame_init (lame W))) as [st rc].
    eexists; split; [reflexivity|]. cbn. unfold EXIT_SUCCESS, EXIT_FAILURE.
    repeat split; try discriminate; auto. intros [_ H]; discriminate.
  - unfold encode_wav2mp3. rewrite Hw.
    destruct (lame_init_params (lame W) (lame_init (lame W))) as [st rc].
    eexists; split; [reflexivity|]. cbn. unfold EXIT_SUCCESS, EXIT_FAILURE.
    repeat split; try discriminate; auto. intros [[w H] _]; discriminate.
Qed.

(** X7: what was acquired is released on the successful return only.
    With [EXIT_SUCCESS] the session and both files are closed; with
    [EXIT_FAILURE] nothing is: no [lame_close] and no [fclose] at all, so a
    source that was opened before the destination failed to open stays
    open. *)
Theorem resources_released_on_success_only (W : world) (wp mp : string) :
  exists r, encode_wav2mp3 W wp mp = Some r /\
    (exit_code r = EXIT_SUCCESS ->
       closed (events r) = true /\
       fclosed wp (events r) = true /\ fclosed mp (events r) = true) /\
    (exit_code r = EXIT_FAILURE ->
       closed (events r) = false /\ forall p, fclosed p (events r) = false).
Proof.
  destruct (wav_files W wp) as [wavfile|] eqn:Hw;
    [destruct (mp3_writable W mp) eqn:Hm|].
  - destruct (encode_wav2mp3_opened_run W wp mp wavfile Hw Hm)
      as (rc & err & r' & Herr & Hr' & ->).
    eexists; split; [reflexivity|].
    pose proof (stream_loop_exit _ _ _ _ _ _ _ _ _ Hr') as (He & _).
    apply stream_loop_tail in Hr' as (pre & rc' & landed & Hev & _ & _ & _).
    cbn [exit_code prepend events]. rewrite He, Hev. split.
    + intros _. unfold closed, fclosed.
      rewrite !existsb_app. cbn. rewrite !String.eqb_refl, !orb_true_r. auto.
    + unfold EXIT_SUCCESS, EXIT_FAILURE. discriminate.
  - unfold encode_wav2mp3. rewrite Hw, Hm.
    destruct (lame_init_params (lame W) (lame_init (lame W))) as [st rc].
    eexists; split; [reflexivity|]. cbn. unfold EXIT_SUCCESS, EXIT_FAILURE.
    split; [discriminate|]. intros _. destruct (rc <? 0); cbn; auto.
  - unfold encode_wav2mp3. rewrite Hw.
    destruct (lame_init_params (lame W) (lame_init (lame W))) as [st rc].
    eexists; split; [reflexivity|]. cbn. unfold EXIT_SUCCESS, EXIT_FAILURE.
    split; [discriminate|]. intros _. destruct (rc <? 0); cbn; auto.
Qed.

(** ** File names and paths *)

Lemma string_app_assoc (a b c : string) :
  ((a ++ b) ++ c)%string = (a ++ (b ++ c))%string.
Proof.
  induction a as [|x a IH]; cbn; [reflexivity|]. rewrite IH. reflexivity.
Qed.

Lemma strrchr_app_last (a b : string) (c : ascii) :
  strrchr b c = None ->
  strrchr (a ++ String c b) c = Some (String c b).
Proof.
  intros Hb. induction a as [|x a IH]; cbn.
  - rewrite Hb, Ascii.eqb_refl. reflexivity.
  - rewrite IH. reflexivity.
Qed.

Lemma strrchr_Some_inv (s t : string) (c : ascii) :
  strrchr s c = Some t ->
  exists pre b, s = (pre ++ t)%string /\ t = String c b /\ strrchr b c = None.
Proof.
  revert t. induction s as [|x s IH]; intros t; cbn; [discriminate|].
  destruct (strrchr s c) as [t'|] eqn:E.
  - intros [= <-]. destruct (IH t' eq_refl) as (pre & b & -> & Ht & Hb).
    exists (String x pre), b. auto.
  - destruct (Ascii.eqb x c) eqn:Ex; [|discriminate].
    apply Ascii.eqb_eq in Ex. subst x. intros [= <-].
    exists EmptyString, s. auto.
Qed.

Lemma strrchr_occurrence (pre post : string) (c : ascii) :
  strrchr (pre ++ String c post) c <> None.
Proof.
  induction pre as [|x pre IH]; cbn.
  - destruct (strrchr post c); [discriminate|].
    rewrite Ascii.eqb_refl. discriminate.
  - destruct (strrchr (pre ++ String c post) c); [discriminate|].
    destruct (IH eq_refl).
Qed.

Lemma strcpy_at_last_None (s repl : string) (c : ascii) :
  strrchr s c = None -> strcpy_at_last s c repl = None.
Proof.
  induction s as [|x s IH]; cbn; [reflexivity|].
  destruct (strrchr s c); [discriminate|].
  rewrite (IH eq_refl). destruct (Ascii.eqb x c); [discriminate|reflexivity].
Qed.

Lemma strcpy_at_last_app (a b repl : string) (c : ascii) :
  strrchr b c = None ->
  strcpy_at_last (a ++ String c b) c repl = Some (a ++ repl)%string.
Proof.
  intros Hb. induction a as [|x a IH]; cbn.
  - rewrite (strcpy_at_last_None b repl c Hb), Ascii.eqb_refl. reflexivity.
  - rewrite IH. reflexivity.
Qed.

Lemma last_char_app_char (p : string) (c : ascii) :
  last_char (p ++ String c EmptyString) = Some c.
Proof.
  induction p as [|x p IH]; [reflexivity|].
  cbn [append last_char]. rewrite IH.
  destruct (p ++ String c EmptyString)%string eqn:E; [|reflexivity].
  destruct p; discriminate.
Qed.

(** X8: [strrchr] finds the last occurrence.  A result is a suffix of the
    string that starts with the character and holds no other occurrence
    of it; NULL is returned only when the character does not occur. *)
Theorem strrchr_finds_last_occurrence (s : string) (c : ascii) :
  match strrchr s c with
  | Some t =>
      exists pre b, s = (pre ++ t)%string /\ t = String c b /\ strrchr b c = None
  | None => forall pre post, s <> (pre ++ String c post)%string
  end.
Proof.
  destruct (strrchr s c) as [t|] eqn:E.
  - apply strrchr_Some_inv. exact E.
  - intros pre post ->. exact (strrchr_occurrence pre post c E).
Qed.

(** X9: the test of line 353 accepts an entry exactly when its name ends
    in [.wav], letter for letter; on a name without a dot the test has no
    defined outcome. *)
Theorem entry_accepted_iff_name_ends_in_wav (d_name : string) :
  (strcmp_is_zero (strrchr d_name ".") ".wav" = Some true <->
     exists stem, d_name = (stem ++ ".wav")%string) /\
  (strcmp_is_zero (strrchr d_name ".") ".wav" = None <->
     forall pre post, d_name <> (pre ++ String "." post)%string).
Proof.
  split; split.
  - unfold strcmp_is_zero.
    destruct (strrchr d_name ".") as [t|] eqn:E; [|discriminate].
    intros [= Ht]. apply String.eqb_eq in Ht. subst t.
    destruct (strrchr_Some_inv _ _ _ E) as (pre & b & -> & _). eauto.
  - intros [stem ->].
    rewrite (strrchr_app_last stem "wav" "." eq_refl). reflexivity.
  - intros H. pose proof (strrchr_finds_last_occurrence d_name ".") as Hs.
    destruct (strrchr d_name "."); [discriminate|exact Hs].
  - intros H. destruct (strrchr d_name ".") as [t|] eqn:E; [|reflexivity].
    destruct (strrchr_Some_inv _ _ _ E) as (pre & b & -> & -> & _).
    destruct (H pre b eq_refl).
Qed.

(** X10: for a name [stem.wav] the parameters built are the directory
    path followed by the name, and the same with [.wav] replaced by
    [.mp3]; dots in the directory path or in the stem change nothing. *)
Theorem build_params_swaps_extension (path stem : string) :
  build_params path (stem ++ ".wav") =
  Some {| wavfile_path := (path ++ stem ++ ".wav")%string;
          mp3file_path := (path ++ stem ++ ".mp3")%string |}.
Proof.
  unfold build_params. rewrite <- !string_app_assoc.
  change ".wav"%string with (String "." "wav").
  rewrite (strcpy_at_last_app (path ++ stem) "wav" ".mp3" "." eq_refl).
  reflexivity.
Qed.

(** X11: after the test of lines 362-365 the path ends in a slash.  The
    path is left alone when it already does, gets exactly one slash
    appended otherwise, and a second pass changes nothing. *)
Theorem with_slash_ends_in_slash (path : string) :
  last_char (with_slash path) = Some "/"%char /\
  (last_char path = Some "/"%char -> with_slash path = path) /\
  (last_char path <> Some "/"%char -> with_slash path = (path ++ "/")%string) /\
  with_slash (with_slash path) = with_slash path.
Proof.
  assert (H1 : last_char path = Some "/"%char -> with_slash path = path).
  { unfold with_slash. intros ->. reflexivity. }
  assert (H2 : last_char path <> Some "/"%char ->
               with_slash path = (path ++ "/")%string).
  { unfold with_slash. destruct (last_char path) as [a|]; [|reflexivity].
    destruct (Ascii.eqb_spec a "/") as [->|Hne].
    - intros H. destruct (H eq_refl).
    - intros _. destruct a as [[] [] [] [] [] [] [] []]; try reflexivity.
      destruct (Hne eq_refl). }
  assert (H3 : last_char (with_slash path) = Some "/"%char).
  { destruct (last_char path) as [a|] eqn:E.
    - destruct (Ascii.eqb_spec a "/") as [->|Hne].
      + rewrite (H1 eq_refl). exact E.
      + rewrite H2 by congruence. apply last_char_app_char.
    - rewrite H2 by discriminate. apply last_char_app_char. }
  repeat split; auto.
  unfold with_slash at 1. rewrite H3. reflexivity.
Qed.

(** ** The directory loop *)

(** X12: an entry [stem.wav] takes [main] from [readdir] to the poll loop
    with the parameters for [path/stem.wav] and [path/stem.mp3], the path
    now ending in a slash; no thread is created, the counter is not
    touched and nothing is printed. *)
Theorem accepted_entry_reaches_poll_loop (ok : bool) (s : state) (stem : string)
    (entries : list string) :
  pc s = MReaddir ((stem ++ ".wav")%string :: entries) ->
  main_step ok s =
  {| numcores := numcores s;
     numthreads := numthreads s;
     path := with_slash (path s);
     pc := MPoll {| wavfile_path := (with_slash (path s) ++ stem ++ ".wav")%string;
                    mp3file_path := (with_slash (path s) ++ stem ++ ".mp3")%string |}
             entries;
     threads := threads s;
     history := history s |}.
Proof.
  intros Hpc. unfold main_step. rewrite Hpc.
  rewrite (strrchr_app_last stem "wav" "." eq_refl). cbn [strcmp_is_zero].
  change (String.eqb (String "." "wav") ".wav") with true. cbv iota.
  unfold build_params. rewrite <- !string_app_assoc.
  change ".wav"%string with (String "." "wav").
  rewrite (strcpy_at_last_app (with_slash (path s) ++ stem) "wav" ".mp3" "." eq_refl).
  reflexivity.
Qed.

Lemma accepted_entry_reaches_poll_loop_witness :
  main_step true (start 2 ["a.wav"%string]) =
  {| numcores := 2; numthreads := 0; path := "d/";
     pc := MPoll a_wav []; threads := []; history := [] |}.
Proof.
  exact (accepted_entry_reaches_poll_loop true (start 2 ["a.wav"%string]) "a" []
           eq_refl).
Defined.

(** X13: [main] returns before the directory loop exactly when it was not
    given one argument or the directory cannot be opened, and then with
    [EXIT_FAILURE]; otherwise the loop starts on the listing of the
    directory with a counter of 0, no thread, and the processor count as
    the limit. *)
Theorem main_returns_early_iff (W : world) (argv : list string) :
  (main W argv = inl EXIT_FAILURE <->
     List.length argv <> 2%nat \/
     exists prog dir, argv = [prog; dir] /\ dir_entries W dir = None) /\
  (forall code, main W argv = inl code -> code = EXIT_FAILURE) /\
  (forall s0, main W argv = inr s0 ->
     exists prog dir entries,
       argv = [prog; dir] /\ dir_entries W dir = Some entries /\
       s0 = {| numcores := nprocessors W; numthreads := 0; path := dir;
               pc := MReaddir entries; threads := []; history := [] |}).
Proof.
  unfold main.
  destruct argv as [|prog [|dir [|x argv]]]; cbn [List.length].
  1,2,4: (split; [split; [intros _; left; lia|reflexivity]|]);
         (split; [intros code [= <-]; reflexivity|discriminate]).
  destruct (dir_entries W dir) as [entries|] eqn:E.
  - split; [split|split].
    + discriminate.
    + intros [H|(prog' & dir' & [= <- <-] & H)]; [lia|congruence].
    + discriminate.
    + intros s0 [= <-]. exists prog, dir, entries. auto.
  - split; [split|split].
    + intros _. right. exists prog, dir. auto.
    + reflexivity.
    + intros code [= <-]. reflexivity.
    + discriminate.
Qed.

(** ** More invariants of the machine *)

Lemma nth_error_set_thread_other (tid tid' : nat) (w : worker) (ts : list worker) :
  tid <> tid' -> nth_error (set_thread tid' w ts) tid = nth_error ts tid.
Proof.
  revert tid tid'. induction ts as [|t ts IH]; intros [|tid] [|tid'] H; cbn; auto.
  - destruct (H eq_refl).
Qed.

Lemma length_set_thread (tid : nat) (w : worker) (ts : list worker) :
  List.length (set_thread tid w ts) = List.length ts.
Proof.
  revert tid. induction ts as [|t ts IH]; intros [|tid]; cbn; auto.
Qed.

Lemma step_accounting_inv (W : world) (c : choice) (s : state) :
  accounting_inv s -> accounting_inv (step W c s).
Proof.
  unfold accounting_inv, count_increments, count_decrements.
  intros (H0 & Hacc & Hdone). destruct c as [ok|tid locked]; cbn [step].
  - unfold main_step.
    destruct (pc s) as [[|d_name entries]|p entries|entries| | |] eqn:Hpc.
    + cbn -[Z.of_nat]. repeat split; auto; discriminate.
    + destruct (strcmp_is_zero (strrchr d_name ".") ".wav") as [[|]|];
        [destruct (build_params (with_slash (path s)) d_name)| |];
        cbn -[Z.of_nat]; repeat split; auto; discriminate.
    + destruct (numthreads s >=? numcores s); [|destruct ok];
        cbn -[Z.of_nat]; repeat split; auto; discriminate.
    + destruct ok; cbn -[Z.of_nat]; repeat split; auto; try discriminate; lia.
    + destruct (numthreads s >? 0) eqn:E; cbn -[Z.of_nat]; repeat split; auto;
        try discriminate. intros _. lia.
    + rewrite Hpc. auto.
    + rewrite Hpc. auto.
  - unfold threadFunction.
    destruct (nth_error (threads s) tid) as [[p|p|p|code]|]; auto.
    + destruct (encode_wav2mp3 W (wavfile_path p) (mp3file_path p)); auto.
      destruct locked; cbn -[Z.of_nat]; auto.
    + destruct locked; [|cbn -[Z.of_nat]; auto].
      unfold decrement. destruct (numthreads s >? 0) eqn:E; cbn -[Z.of_nat].
      * split; [lia|]. split; [lia|]. intros H. specialize (Hdone H). lia.
      * auto.
    + destruct locked; cbn -[Z.of_nat]; auto.
Qed.

(** X14: in every reachable state the counter equals the number of
    increments [main] made minus the number of decrements the threads
    made; and once [main] has left the drain loop the counter is zero, so
    that the two numbers are equal, and it stays zero. *)
Theorem counter_is_increments_minus_decrements
    (W : world) (argv : list string) (s : state) :
  reachable W argv s ->
  numthreads s = Z.of_nat (count_increments (history s))
                 - Z.of_nat (count_decrements (history s)) /\
  (pc s = MDone ->
     numthreads s = 0 /\
     count_increments (history s) = count_decrements (history s)).
Proof.
  intros (s0 & schedule & Hmain & <-).
  destruct (main_numcores W argv s0 Hmain) as (_ & Hn & _ & Hh & entries & Hpc).
  assert (I : accounting_inv (run W schedule s0)).
  { apply run_invariant; [apply step_accounting_inv|].
    unfold accounting_inv. rewrite Hn, Hh, Hpc. cbn.
    repeat split; lia. }
  destruct I as (_ & Hacc & Hdone).
  split; [exact Hacc|]. intros H. specialize (Hdone H). split; [exact Hdone|lia].
Qed.

Lemma counter_is_increments_minus_decrements_witness :
  let s := run world_ok schedule_whole_run
             (start 2 ["."; ".."; "a.wav"; "notes.txt"]%string) in
  reachable world_ok argv_d s /\
  pc s = MDone /\
  numthreads s = 0 /\
  count_increments (history s) = count_decrements (history s).
Proof.
  cbv zeta.
  assert (R : reachable world_ok argv_d
                (run world_ok schedule_whole_run
                   (start 2 ["."; ".."; "a.wav"; "notes.txt"]%string))).
  { exists (start 2 ["."; ".."; "a.wav"; "notes.txt"]%string), schedule_whole_run.
    split; [vm_compute; reflexivity|reflexivity]. }
  assert (D : pc (run world_ok schedule_whole_run
                    (start 2 ["."; ".."; "a.wav"; "notes.txt"]%string)) = MDone)
    by (vm_compute; reflexivity).
  split; [exact R|]. split; [exact D|].
  exact (proj2 (counter_is_increments_minus_decrements world_ok argv_d _ R) D).
Defined.

Ltac split_in :=
  repeat match goal with
         | H : In _ (_ :: _) |- _ => cbn [In] in H
         | H : _ \/ _ |- _ =>
             destruct H as [H|H];
             [try discriminate; try (injection H as H; congruence)|]
         | H : In _ (_ ++ _) |- _ => apply in_app_or in H
         | H : In _ [] |- _ => destruct H
         | H : False |- _ => destruct H
         end.

Lemma threadFunction_length (W : world) (tid : nat) (locked : bool) (s : state) :
  List.length (threads (threadFunction W tid locked s)) = List.length (threads s).
Proof.
  unfold threadFunction.
  destruct (nth_error (threads s) tid) as [[p|p|p|code]|]; auto.
  - destruct (encode_wav2mp3 W (wavfile_path p) (mp3file_path p)); auto.
    cbn. apply length_set_thread.
  - destruct (if locked then decrement tid (numthreads s) else (numthreads s, [])).
    cbn. apply length_set_thread.
  - cbn. apply length_set_thread.
Qed.

Lemma main_step_threads (ok : bool) (s : state) :
  threads (main_step ok s) = threads s \/
  exists p, threads (main_step ok s) = threads s ++ [WBegin p].
Proof.
  unfold main_step.
  destruct (pc s) as [[|d_name entries]|p entries|entries| | |]; cbn; auto.
  - destruct (strcmp_is_zero (strrchr d_name ".") ".wav") as [[|]|]; cbn; auto.
    destruct (build_params (with_slash (path s)) d_name); cbn; auto.
  - destruct (numthreads s >=? numcores s); [|destruct ok]; cbn; eauto.
  - destruct ok; cbn; auto.
  - destruct (numthreads s >? 0); cbn; auto.
Qed.

(** What [main] adds to the history is none of a thread's actions. *)
Lemma main_step_history (ok : bool) (s : state) (tid : nat) :
  In (ADecrement tid) (history (main_step ok s)) -> In (ADecrement tid) (history s).
Proof.
  unfold main_step.
  destruct (pc s) as [[|d_name entries]|p entries|entries| | |]; cbn; auto.
  - destruct (strcmp_is_zero (strrchr d_name ".") ".wav") as [[|]|]; cbn; auto.
    + destruct (build_params (with_slash (path s)) d_name); cbn; auto.
    + intros H; split_in; auto.
  - destruct (numthreads s >=? numcores s); [|destruct ok]; cbn;
      intros H; split_in; auto.
  - destruct ok; cbn; intros H; split_in; auto.
  - destruct (numthreads s >? 0); cbn; intros H; split_in; auto.
Qed.

Lemma step_exited (W : world) (c : choice) (s : state) (tid : nat) (code : Z) :
  nth_error (threads s) tid = Some (WExited code) ->
  nth_error (threads (step W c s)) tid = Some (WExited code).
Proof.
  intros H. destruct c as [ok|tid' locked]; cbn [step].
  - destruct (main_step_threads ok s) as [-> | [p ->]]; [exact H|].
    rewrite nth_error_app1; [exact H|].
    apply nth_error_Some. rewrite H. discriminate.
  - destruct (Nat.eq_dec tid tid') as [<-|Hne].
    + unfold threadFunction. rewrite H. exact H.
    + unfold threadFunction.
      destruct (nth_error (threads s) tid') as [[p|p|p|code']|]; auto.
      * destruct (encode_wav2mp3 W (wavfile_path p) (mp3file_path p)); auto.
        cbn. rewrite nth_error_set_thread_other; auto.
      * destruct (if locked then decrement tid' (numthreads s) else (numthreads s, [])).
        cbn. rewrite nth_error_set_thread_other; auto.
      * cbn. rewrite nth_error_set_thread_other; auto.
Qed.

Lemma step_exited_without_decrement (W : world) (c : choice) (s : state)
    (tid : nat) (code : Z) :
  exited_without_decrement tid code s ->
  exited_without_decrement tid code (step W c s).
Proof.
  intros [He Hh]. split; [apply step_exited; exact He|].
  destruct c as [ok|tid' locked]; cbn [step].
  - intros H. apply Hh. exact (main_step_history ok s tid H).
  - destruct (Nat.eq_dec tid tid') as [<-|Hne].
    + unfold threadFunction. rewrite He. exact Hh.
    + unfold threadFunction.
      destruct (nth_error (threads s) tid') as [[p|p|p|code']|]; auto.
      * destruct (encode_wav2mp3 W (wavfile_path p) (mp3file_path p)); auto.
        destruct locked; cbn; intros H; split_in; auto.
      * destruct locked; [|cbn; auto].
        unfold decrement. destruct (numthreads s >? 0); cbn;
          intros H; split_in; auto.
      * destruct locked; cbn; intros H; split_in; auto.
Qed.

(** X15: a thread that has called [pthread_exit] is finished for good.
    Under every later interleaving it keeps its exit status, and a step
    scheduled for it changes nothing: it does not touch the counter, the
    history or any other thread. *)
Theorem exited_thread_stays_exited (W : world) (s : state) (tid : nat) (code : Z) :
  nth_error (threads s) tid = Some (WExited code) ->
  (forall locked, threadFunction W tid locked s = s) /\
  forall schedule,
    nth_error (threads (run W schedule s)) tid = Some (WExited code).
Proof.
  intros H. split.
  - intros locked. unfold threadFunction. rewrite H. reflexivity.
  - intros schedule.
    apply (run_invariant W (fun s => nth_error (threads s) tid = Some (WExited code)));
      [|exact H].
    intros c s'. apply step_exited.
Qed.

Lemma exited_thread_stays_exited_witness :
  let s := run world_unreadable schedule_failed_job (start 2 ["c.wav"%string]) in
  nth_error (threads s) 0 = Some (WExited EXIT_FAILURE) /\
  threadFunction world_unreadable 0 true s = s /\
  nth_error (threads (run world_unreadable [RunThread 0 true; RunMain true] s)) 0
    = Some (WExited EXIT_FAILURE).
Proof.
  cbv zeta.
  assert (H : nth_error
                (threads (run world_unreadable schedule_failed_job
                            (start 2 ["c.wav"%string]))) 0
              = Some (WExited EXIT_FAILURE)) by (vm_compute; reflexivity).
  destruct (exited_thread_stays_exited world_unreadable _ 0%nat EXIT_FAILURE H)
    as [Hstep Hrun].
  split; [exact H|]. split; [apply Hstep|apply Hrun].
Defined.

(** X16: a job whose source or destination cannot be opened never gives
    its slot back.  The thread exits with [EXIT_FAILURE] in its first
    step, leaving the counter as it was, and under every later
    interleaving it stays exited and has made no decrement. *)
Theorem failed_job_never_decrements (W : world) (s : state) (tid : nat)
    (p : threadParams) (locked : bool) :
  nth_error (threads s) tid = Some (WBegin p) ->
  wav_files W (wavfile_path p) = None \/ mp3_writable W (mp3file_path p) = false ->
  ~ In (ADecrement tid) (history s) ->
  let s' := threadFunction W tid locked s in
  nth_error (threads s') tid = Some (WExited EXIT_FAILURE) /\
  numthreads s' = numthreads s /\
  forall schedule,
    nth_error (threads (run W schedule s')) tid = Some (WExited EXIT_FAILURE) /\
    ~ In (ADecrement tid) (history (run W schedule s')).
Proof.
  intros Hn Hopen Hh. cbv zeta.
  destruct (encode_wav2mp3_not_opened W _ _ Hopen) as (r & Hr & He & _).
  assert (Hne : exit_code r <> EXIT_SUCCESS)
    by (rewrite He; unfold EXIT_SUCCESS, EXIT_FAILURE; discriminate).
  destruct (worker_failure_path W s tid p r locked Hn Hr Hne) as (H1 & H2 & _ & _).
  split; [exact H1|]. split; [exact H2|].
  intros schedule.
  apply (run_invariant W (exited_without_decrement tid EXIT_FAILURE)).
  - intros c s'. apply step_exited_without_decrement.
  - split; [exact H1|]. clear Hopen.
    unfold threadFunction. rewrite Hn, Hr.
    destruct locked; cbn; intros H; split_in; auto.
Qed.

Lemma failed_job_never_decrements_witness :
  let s := run world_unreadable [RunMain true; RunMain true; RunMain true]
             (start 2 ["c.wav"%string]) in
  let s' := threadFunction world_unreadable 0 true s in
  nth_error (threads s) 0 = Some (WBegin {| wavfile_path := "d/c.wav";
                                            mp3file_path := "d/c.mp3" |}) /\
  numthreads s = 1 /\
  nth_error (threads s') 0 = Some (WExited EXIT_FAILURE) /\
  numthreads s' = numthreads s /\
  ~ In (ADecrement 0) (history (run world_unreadable [RunMain true; RunMain true] s')).
Proof.
  cbv zeta.
  assert (Hn : nth_error
                 (threads (run world_unreadable [RunMain true; RunMain true; RunMain true]
                             (start 2 ["c.wav"%string]))) 0
               = Some (WBegin {| wavfile_path := "d/c.wav";
                                 mp3file_path := "d/c.mp3" |}))
    by (vm_compute; reflexivity).
  assert (Hh : ~ In (ADecrement 0)
                 (history (run world_unreadable [RunMain true; RunMain true; RunMain true]
                             (start 2 ["c.wav"%string])))).
  { vm_compute. intros H; split_in. }
  destruct (failed_job_never_decrements world_unreadable _ 0%nat _ true Hn
              (or_introl eq_refl) Hh) as (H1 & H2 & Hrun).
  split; [exact Hn|]. split; [vm_compute; reflexivity|].
  split; [exact H1|]. split; [exact H2|].
  exact (proj2 (Hrun [RunMain true; RunMain true])).
Defined.

Lemma step_created_inv (W : world) (c : choice) (s : state) :
  created_inv s -> created_inv (step W c s).
Proof.
  unfold created_inv. intros H. destruct c as [ok|tid locked]; cbn [step].
  - unfold main_step.
    destruct (pc s) as [[|d_name entries]|p entries|entries| | |] eqn:Hpc;
      cbn [uncounted] in H.
    + cbn. lia.
    + destruct (strcmp_is_zero (strrchr d_name ".") ".wav") as [[|]|];
        [destruct (build_params (with_slash (path s)) d_name)| |]; cbn; lia.
    + destruct (numthreads s >=? numcores s); [|destruct ok];
        cbn -[Z.of_nat]; rewrite ?length_app; cbn -[Z.of_nat]; lia.
    + destruct ok; cbn; lia.
    + destruct (numthreads s >? 0); cbn; lia.
    + rewrite Hpc. cbn. lia.
    + rewrite Hpc. cbn. lia.
  - destruct (threadFunction_frame W tid locked s) as (_ & Hpc & Hle & _).
    rewrite Hpc, threadFunction_length. lia.
Qed.

(** X17: the counter never counts a thread that was not created: in
    every reachable state it is at most the number of threads started so
    far, and one less than that at least while [main] stands between
    [pthread_create] and its increment. *)
Theorem counter_at_most_threads_created (W : world) (argv : list string) (s : state) :
  reachable W argv s ->
  numthreads s <= Z.of_nat (List.length (threads s)) /\
  (forall entries, pc s = MIncrement entries ->
     numthreads s < Z.of_nat (List.length (threads s))).
Proof.
  intros (s0 & schedule & Hmain & <-).
  destruct (main_numcores W argv s0 Hmain) as (_ & Hn & Ht & _ & entries & Hpc).
  assert (I : created_inv (run W schedule s0)).
  { apply run_invariant; [apply step_created_inv|].
    unfold created_inv. rewrite Hn, Ht, Hpc. cbn. lia. }
  unfold created_inv in I. split.
  - destruct (pc (run W schedule s0)); cbn in I; lia.
  - intros es H. rewrite H in I. cbn in I. lia.
Qed.

Lemma counter_at_most_threads_created_witness :
  let s := run world_ok schedule_early_worker
             (start 2 ["."; ".."; "a.wav"; "notes.txt"]%string) in
  reachable world_ok argv_d s /\
  pc s = MIncrement ["notes.txt"%string] /\
  List.length (threads s) = 1%nat /\
  numthreads s < Z.of_nat (List.length (threads s)).
Proof.
  cbv zeta.
  assert (R : reachable world_ok argv_d
                (run world_ok schedule_early_worker
                   (start 2 ["."; ".."; "a.wav"; "notes.txt"]%string))).
  { exists (start 2 ["."; ".."; "a.wav"; "notes.txt"]%string), schedule_early_worker.
    split; [vm_compute; reflexivity|reflexivity]. }
  assert (P : pc (run world_ok schedule_early_worker
                    (start 2 ["."; ".."; "a.wav"; "notes.txt"]%string))
              = MIncrement ["notes.txt"%string]) by (vm_compute; reflexivity).
  split; [exact R|]. split; [exact P|]. split; [vm_compute; reflexivity|].
  exact (proj2 (counter_at_most_threads_created world_ok argv_d _ R) _ P).
Defined.

(** ** A run that handles one job after the other *)

Lemma run_app (W : world) (l1 l2 : list choice) (s : state) :
  run W (l1 ++ l2) s = run W l2 (run W l1 s).
Proof.
  revert s. induction l1 as [|c l1 IH]; intros s; cbn; auto.
Qed.

Lemma set_thread_twice (tid : nat) (a b : worker) (ts : list worker) :
  set_thread tid b (set_thread tid a ts) = set_thread tid b ts.
Proof.
  revert tid. induction ts as [|t ts IH]; intros [|tid]; cbn; auto.
  rewrite IH. reflexivity.
Qed.

Lemma set_thread_last (w x : worker) (ts : list worker) :
  set_thread (List.length ts) w (ts ++ [x]) = ts ++ [w].
Proof.
  induction ts as [|t ts IH]; cbn; [reflexivity|]. rewrite IH. reflexivity.
Qed.

Lemma with_slash_twice (path : string) :
  with_slash (with_slash path) = with_slash path.
Proof.
  assert (H : last_char (with_slash path) = Some "/"%char).
  { unfold with_slash. destruct (last_char path) as [a|] eqn:E.
    - destruct (Ascii.eqb_spec a "/") as [->|Hne]; [exact E|].
      destruct a as [[] [] [] [] [] [] [] []];
        try apply last_char_app_char. destruct (Hne eq_refl).
    - apply last_char_app_char. }
  unfold with_slash at 1. rewrite H. reflexivity.
Qed.

Lemma strcpy_at_last_Some (s repl : string) (c : ascii) :
  strrchr s c <> None -> strcpy_at_last s c repl <> None.
Proof.
  induction s as [|x s IH]; cbn; [auto|].
  destruct (strrchr s c) as [t|].
  - intros _. destruct (strcpy_at_last s c repl); [discriminate|].
    destruct (IH ltac:(discriminate) eq_refl).
  - destruct (strcpy_at_last s c repl); [discriminate|].
    destruct (Ascii.eqb x c); [discriminate|auto].
Qed.

Lemma build_params_defined (path d_name : string) :
  strrchr d_name "." <> None -> build_params path d_name <> None.
Proof.
  intros H. unfold build_params.
  destruct (strrchr d_name ".") as [t|] eqn:E; [|destruct (H eq_refl)].
  destruct (strrchr_Some_inv _ _ _ E) as (pre & b & -> & -> & _).
  rewrite <- string_app_assoc.
  pose proof (strcpy_at_last_Some ((path ++ pre) ++ String "." b) ".mp3" "."
                (strrchr_occurrence (path ++ pre) b ".")) as Hs.
  destruct (strcpy_at_last ((path ++ pre) ++ String "." b) "." ".mp3");
    [discriminate|destruct (Hs eq_refl)].
Qed.

(** The three steps of a thread whose job succeeds, on a counter that is
    positive. *)
Lemma worker_success_run (W : world) (s : state) (tid : nat) (p : threadParams)
    (r : result) :
  nth_error (threads s) tid = Some (WBegin p) ->
  encode_wav2mp3 W (wavfile_path p) (mp3file_path p) = Some r ->
  exit_code r = EXIT_SUCCESS ->
  0 < numthreads s ->
  numcores (run W (thread_to_end tid) s) = numcores s /\
  numthreads (run W (thread_to_end tid) s) = numthreads s - 1 /\
  path (run W (thread_to_end tid) s) = path s /\
  pc (run W (thread_to_end tid) s) = pc s /\
  threads (run W (thread_to_end tid) s)
    = set_thread tid (WExited EXIT_SUCCESS) (threads s).
Proof.
  intros Hn Hr He Hpos. unfold thread_to_end. cbn [run step].
  assert (E1 : threadFunction W tid true s =
               {| numcores := numcores s; numthreads := numthreads s;
                  path := path s; pc := pc s;
                  threads := set_thread tid (WDecrement p) (threads s);
                  history := AEncoded tid r :: [ABeginLine tid p] ++ history s |}).
  { unfold threadFunction. rewrite Hn, Hr, He. reflexivity. }
  rewrite E1.
  assert (E2 : forall h,
             threadFunction W tid true
               {| numcores := numcores s; numthreads := numthreads s;
                  path := path s; pc := pc s;
                  threads := set_thread tid (WDecrement p) (threads s);
                  history := h |} =
             {| numcores := numcores s; numthreads := numthreads s - 1;
                path := path s; pc := pc s;
                threads := set_thread tid (WFinish p) (threads s);
                history := [ADecrement tid] ++ h |}).
  { intros h. unfold threadFunction. cbn [threads numthreads].
    rewrite (nth_error_set_thread tid (WDecrement p) _ _ Hn).
    unfold decrement. replace (numthreads s >? 0) with true
      by (symmetry; apply Z.gtb_lt; lia).
    cbn. rewrite set_thread_twice. reflexivity. }
  rewrite E2.
  unfold threadFunction. cbn [threads].
  rewrite (nth_error_set_thread tid (WFinish p) _ _ Hn).
  cbn. rewrite set_thread_twice. auto.
Qed.

Lemma sequential_from (W : world) (dir : string) (entries : list string) :
  forall s,
    pc s = MReaddir entries ->
    numthreads s = 0 ->
    1 <= numcores s ->
    with_slash (path s) = with_slash dir ->
    Forall (fun d_name => strrchr d_name "." <> None) entries ->
    (forall d_name, In d_name entries -> accepted d_name = true ->
       job_opens W (with_slash dir) d_name) ->
    Forall (fun t => t = WExited EXIT_SUCCESS) (threads s) ->
    let s' := run W (sequential entries (List.length (threads s))) s in
    pc s' = MDone /\ numthreads s' = 0 /\
    Forall (fun t => t = WExited EXIT_SUCCESS) (threads s') /\
    List.length (threads s')
      = (List.length (threads s) + List.length (filter accepted entries))%nat.
Proof.
  induction entries as [|d_name entries IH];
    intros s Hpc Hn Hc Hpath Hdot Hopen Hex; cbv zeta.
  - cbn [sequential filter List.length].
    assert (E : run W [RunMain true; RunMain true] s =
                {| numcores := numcores s; numthreads := numthreads s;
                   path := path s; pc := MDone; threads := threads s;
                   history := AAllFinished :: history s |}).
    { cbn [run step]. unfold main_step at 2. rewrite Hpc.
      unfold main_step. cbn [pc numthreads]. rewrite Hn. reflexivity. }
    rewrite E. cbn. rewrite Nat.add_0_r. auto.
  - inversion Hdot as [|? ? Hd Hdot']; subst.
    cbn [sequential filter].
    destruct (accepted d_name) eqn:Hacc.
    + (* the entry is a job *)
      assert (Htest : strcmp_is_zero (strrchr d_name ".") ".wav" = Some true).
      { unfold accepted in Hacc.
        destruct (strcmp_is_zero (strrchr d_name ".") ".wav") as [[|]|];
          (reflexivity || discriminate). }
      destruct (build_params (with_slash dir) d_name) as [p|] eqn:Hp;
        [|destruct (build_params_defined (with_slash dir) d_name Hd Hp)].
      destruct (Hopen d_name (or_introl eq_refl) Hacc p Hp) as [[wavfile Hw] Hm].
      destruct (encode_wav2mp3_opened W _ _ wavfile Hw Hm) as (r & Hr & He & _).
      rewrite !run_app.
      set (s1 := {| numcores := numcores s; numthreads := 1;
                    path := with_slash dir; pc := MReaddir entries;
                    threads := threads s ++ [WBegin p];
                    history := AIncrement
                               :: ACreated (List.length (threads s)) p
                               :: history s |}).
      assert (E : run W [RunMain true; RunMain true; RunMain true] s = s1).
      { cbn [run step]. unfold main_step at 3. rewrite Hpc, Htest, Hpath, Hp.
        unfold main_step at 2. cbn [pc numthreads numcores]. rewrite Hn.
        replace (0 >=? numcores s) with false
          by (symmetry; rewrite Z.geb_leb; apply Z.leb_gt; lia).
        unfold main_step. cbn. reflexivity. }
      rewrite E.
      assert (Hnth : nth_error (threads s1) (List.length (threads s)) = Some (WBegin p)).
      { cbn. rewrite nth_error_app2 by lia. rewrite Nat.sub_diag. reflexivity. }
      destruct (worker_success_run W s1 (List.length (threads s)) p r Hnth Hr He
                  ltac:(cbn; lia)) as (H1 & H2 & H3 & H4 & H5).
      cbn [numcores numthreads path pc threads s1] in H1, H2, H3, H4, H5.
      rewrite set_thread_last in H5.
      pose proof (IH (run W (thread_to_end (List.length (threads s))) s1)) as IH'.
      rewrite H1, H2, H3, H4, H5 in IH'. rewrite length_app in IH'.
      cbn [List.length] in IH'. rewrite Nat.add_1_r in IH'.
      cbv zeta in IH'.
      destruct IH' as (I1 & I2 & I3 & I4); auto.
      * apply with_slash_twice.
      * intros e He'. apply Hopen. right. exact He'.
      * apply Forall_app. split; [exact Hex|]. constructor; auto.
      * repeat split; auto. rewrite I4. cbn [List.length]. lia.
    + (* the entry is skipped *)
      assert (Htest : strcmp_is_zero (strrchr d_name ".") ".wav" = Some false).
      { unfold accepted in Hacc. unfold strcmp_is_zero in *.
        destruct (strrchr d_name "."); [|destruct (Hd eq_refl)].
        destruct (String.eqb s0 ".wav"); [discriminate|reflexivity]. }
      cbn [run step].
      set (s1 := {| numcores := numcores s; numthreads := numthreads s;
                    path := path s; pc := MReaddir entries;
                    threads := threads s;
                    history := ASkip d_name :: history s |}).
      assert (E : main_step true s = s1).
      { unfold main_step. rewrite Hpc, Htest. reflexivity. }
      rewrite E.
      apply (IH s1); auto.
      intros e He'. apply Hopen. right. exact He'.
Qed.

(** X18: a run that ends.  With at least one core, a directory whose
    entries all contain a dot, and jobs whose source and destination all
    open, the schedule that lets each thread finish as soon as [main] has
    counted it takes [main] through the whole listing and out of the
    drain loop: [main] is done, the counter is back at 0, one thread was
    created per [.wav] entry and every one of them exited with
    [EXIT_SUCCESS]. *)
Theorem sequential_run_completes (W : world) (prog dir : string)
    (entries : list string) :
  dir_entries W dir = Some entries ->
  1 <= nprocessors W ->
  Forall (fun d_name => strrchr d_name "." <> None) entries ->
  (forall d_name, In d_name entries -> accepted d_name = true ->
     job_opens W (with_slash dir) d_name) ->
  exists s0, main W [prog; dir] = inr s0 /\
    let s := run W (sequential entries 0) s0 in
    pc s = MDone /\ numthreads s = 0 /\
    Forall (fun t => t = WExited EXIT_SUCCESS) (threads s) /\
    List.length (threads s) = List.length (filter accepted entries).
Proof.
  intros Hdir Hc Hdot Hopen. unfold main. rewrite Hdir.
  eexists; split; [reflexivity|].
  apply (sequential_from W dir entries
           {| numcores := nprocessors W; numthreads := 0; path := dir;
              pc := MReaddir entries; threads := []; history := [] |});
    auto.
Qed.

Lemma sequential_run_completes_witness :
  let s := run world_ok (sequential ["."; ".."; "a.wav"; "notes.txt"]%string 0)
             (start 2 ["."; ".."; "a.wav"; "notes.txt"]%string) in
  pc s = MDone /\ numthreads s = 0 /\
  Forall (fun t => t = WExited EXIT_SUCCESS) (threads s) /\
  List.length (threads s) = 1%nat.
Proof.
  cbv zeta.
  assert (Hdot : Forall (fun d_name => strrchr d_name "." <> None)
                   ["."; ".."; "a.wav"; "notes.txt"]%string).
  { repeat constructor; vm_compute; discriminate. }
  assert (Hopen : forall d_name,
             In d_name ["."; ".."; "a.wav"; "notes.txt"]%string ->
             accepted d_name = true ->
             job_opens world_ok (with_slash "d") d_name).
  { intros d_name Hin Hacc.
    cbn [In] in Hin.
    destruct Hin as [<-|[<-|[<-|[<-|[]]]]]; try (vm_compute in Hacc; discriminate).
    intros p Hp. vm_compute in Hp. injection Hp as <-.
    split; [exists two_frames|]; vm_compute; reflexivity. }
  destruct (sequential_run_completes world_ok "wav2mp3" "d"
              ["."; ".."; "a.wav"; "notes.txt"]%string
              ltac:(vm_compute; reflexivity) ltac:(vm_compute; discriminate)
              Hdot Hopen) as (s0 & Hs0 & H).
  vm_compute in Hs0. injection Hs0 as <-.
  exact H.
Defined.

(** ** Decrements, thread by thread *)

Lemma main_step_decrements_of (ok : bool) (s : state) (tid : nat) :
  decrements_of tid (history (main_step ok s)) = decrements_of tid (history s).
Proof.
  unfold main_step, decrements_of.
  destruct (pc s) as [[|d_name entries]|p entries|entries| | |]; cbn; auto.
  - destruct (strcmp_is_zero (strrchr d_name ".") ".wav") as [[|]|]; cbn; auto.
    destruct (build_params (with_slash (path s)) d_name); cbn; auto.
  - destruct (numthreads s >=? numcores s); [|destruct ok]; cbn; auto.
  - destruct ok; cbn; auto.
  - destruct (numthreads s >? 0); cbn; auto.
Qed.

Lemma main_step_nth (ok : bool) (s : state) (tid : nat) (w : worker) :
  nth_error (threads s) tid = Some w ->
  nth_error (threads (main_step ok s)) tid = Some w.
Proof.
  intros H. destruct (main_step_threads ok s) as [-> | [p ->]]; [exact H|].
  rewrite nth_error_app1; [exact H|].
  apply nth_error_Some. rewrite H. discriminate.
Qed.

(** A step of one thread changes neither the status of another thread
    nor the number of its decrements. *)
Lemma other_thread_frame (W : world) (tid tid' : nat) (locked : bool) (s : state) :
  tid <> tid' ->
  nth_error (threads (threadFunction W tid' locked s)) tid = nth_error (threads s) tid /\
  decrements_of tid (history (threadFunction W tid' locked s))
    = decrements_of tid (history s).
Proof.
  intros Hne. assert (Hb : Nat.eqb tid' tid = false) by (apply Nat.eqb_neq; auto).
  unfold threadFunction, decrements_of.
  destruct (nth_error (threads s) tid') as [[p|p|p|code]|]; auto.
  - destruct (encode_wav2mp3 W (wavfile_path p) (mp3file_path p)); auto.
    cbn [threads history]. rewrite nth_error_set_thread_other by exact Hne.
    destruct locked; cbn; auto.
  - destruct locked; [unfold decrement; destruct (numthreads s >? 0)|];
      cbn [threads history]; rewrite nth_error_set_thread_other by exact Hne;
      cbn; rewrite ?Hb; auto.
  - cbn [threads history]. rewrite nth_error_set_thread_other by exact Hne.
    destruct locked; cbn; auto.
Qed.

Lemma step_once_inv (W : world) (c : choice) (s : state) (tid : nat) :
  once_inv tid s -> once_inv tid (step W c s).
Proof.
  unfold once_inv. intros H. destruct c as [ok|tid' locked]; cbn [step].
  - rewrite main_step_decrements_of.
    destruct (main_step_threads ok s) as [-> | [p ->]]; [exact H|].
    destruct (Nat.lt_ge_cases tid (List.length (threads s))) as [Hlt|Hge].
    + rewrite nth_error_app1 by exact Hlt. exact H.
    + assert (E : nth_error (threads s) tid = None) by (apply nth_error_None; lia).
      rewrite E in H. rewrite nth_error_app2 by lia.
      destruct (tid - List.length (threads s))%nat as [|[|n]]; cbn; exact H.
  - destruct (Nat.eq_dec tid tid') as [<-|Hne].
    + unfold threadFunction.
      destruct (nth_error (threads s) tid) as [[p|p|p|code]|] eqn:E.
      * destruct (encode_wav2mp3 W (wavfile_path p) (mp3file_path p)) as [r|];
          [|rewrite E; exact H].
        cbn [threads history]. rewrite (nth_error_set_thread _ _ _ _ E).
        cbn in H. unfold decrements_of in *.
        destruct (exit_code r =? EXIT_SUCCESS); destruct locked; cbn; lia.
      * cbn in H. unfold decrements_of in *.
        destruct locked; [unfold decrement; destruct (numthreads s >? 0)|];
          cbn [threads history]; rewrite (nth_error_set_thread _ _ _ _ E);
          cbn; rewrite ?Nat.eqb_refl; cbn; lia.
      * cbn [threads history]. rewrite (nth_error_set_thread _ _ _ _ E).
        cbn in H. unfold decrements_of in *. destruct locked; cbn; lia.
      * rewrite E. exact H.
      * rewrite E. exact H.
    + destruct (other_thread_frame W tid tid' locked s Hne) as [-> ->]. exact H.
Qed.

Lemma step_settled_inv (W : world) (c : choice) (s : state) (tid k : nat) :
  settled_inv tid k s -> settled_inv tid k (step W c s).
Proof.
  unfold settled_inv. intros [Hp Hk]. destruct c as [ok|tid' locked]; cbn [step].
  - rewrite main_step_decrements_of. split; [|exact Hk].
    destruct (nth_error (threads s) tid) as [w|] eqn:E; [|discriminate].
    rewrite (main_step_nth ok s tid w E). exact Hp.
  - destruct (Nat.eq_dec tid tid') as [<-|Hne].
    + unfold threadFunction.
      destruct (nth_error (threads s) tid) as [[p|p|p|code]|] eqn:E;
        try discriminate.
      * cbn [threads history]. rewrite (nth_error_set_thread _ _ _ _ E).
        split; [reflexivity|]. unfold decrements_of in *.
        destruct locked; cbn; exact Hk.
      * rewrite E. auto.
    + destruct (other_thread_frame W tid tid' locked s Hne) as [-> ->]. auto.
Qed.

(** X19: no thread decrements the counter more than once, and a thread
    that has decremented has left the locked block of lines 78-90: it is
    at its END line or has exited. *)
Theorem at_most_one_decrement_per_thread
    (W : world) (argv : list string) (s : state) (tid : nat) :
  reachable W argv s ->
  (decrements_of tid (history s) <= 1)%nat /\
  (decrements_of tid (history s) = 1%nat ->
   past_decrement (nth_error (threads s) tid) = true).
Proof.
  intros (s0 & schedule & Hmain & <-).
  destruct (main_numcores W argv s0 Hmain) as (_ & _ & Ht & Hh & _).
  assert (I : once_inv tid (run W schedule s0)).
  { apply (run_invariant W (once_inv tid)).
    - intros c s. apply step_once_inv.
    - unfold once_inv. rewrite Ht, Hh. destruct tid; reflexivity. }
  unfold once_inv in I.
  destruct (past_decrement (nth_error (threads (run W schedule s0)) tid)).
  - auto.
  - rewrite I. split; [lia|discriminate].
Qed.

Lemma at_most_one_decrement_per_thread_witness :
  let s := run world_ok schedule_whole_run
             (start 2 ["."; ".."; "a.wav"; "notes.txt"]%string) in
  reachable world_ok argv_d s /\
  decrements_of 0 (history s) = 1%nat /\
  past_decrement (nth_error (threads s) 0) = true.
Proof.
  cbv zeta.
  assert (R : reachable world_ok argv_d
                (run world_ok schedule_whole_run
                   (start 2 ["."; ".."; "a.wav"; "notes.txt"]%string))).
  { exists (start 2 ["."; ".."; "a.wav"; "notes.txt"]%string), schedule_whole_run.
    split; [vm_compute; reflexivity|reflexivity]. }
  assert (D : decrements_of 0
                (history (run world_ok schedule_whole_run
                            (start 2 ["."; ".."; "a.wav"; "notes.txt"]%string)))
              = 1%nat) by (vm_compute; reflexivity).
  split; [exact R|]. split; [exact D|].
  exact (proj2 (at_most_one_decrement_per_thread world_ok argv_d _ 0%nat R) D).
Defined.

(** X20: the decrement can come too early.  [main] increments only
    after [pthread_create] has returned, so a thread may reach its
    decrement while its own increment is still to come; on a counter of 0
    it logs "numthreads !>0" and decrements nothing.  [main] then counts
    the thread, and since the thread is past its decrement, the counter
    keeps that 1 for a thread that will never give it back: under every
    later interleaving the thread makes no decrement. *)
Theorem early_decrement_is_lost (W : world) (s : state) (tid : nat)
    (p : threadParams) (entries : list string) :
  pc s = MIncrement entries ->
  nth_error (threads s) tid = Some (WDecrement p) ->
  numthreads s = 0 ->
  let s' := run W [RunThread tid true; RunMain true] s in
  numthreads s' = 1 /\
  pc s' = MReaddir entries /\
  nth_error (threads s') tid = Some (WFinish p) /\
  history s' = AIncrement :: ANotPositive tid :: history s /\
  forall schedule,
    decrements_of tid (history (run W schedule s'))
      = decrements_of tid (history s).
Proof.
  intros Hpc Hn H0. cbv zeta. cbn [run step].
  assert (E1 : threadFunction W tid true s =
               {| numcores := numcores s; numthreads := 0; path := path s;
                  pc := MIncrement entries;
                  threads := set_thread tid (WFinish p) (threads s);
                  history := ANotPositive tid :: history s |}).
  { unfold threadFunction. rewrite Hn, H0, Hpc. reflexivity. }
  rewrite E1. unfold main_step at 1 2 3 4. cbn [pc numthreads threads history].
  split; [reflexivity|]. split; [reflexivity|].
  split; [apply (nth_error_set_thread _ _ _ _ Hn)|].
  split; [reflexivity|].
  intros schedule.
  apply (run_invariant W (settled_inv tid (decrements_of tid (history s)))).
  - intros c s'. apply step_settled_inv.
  - unfold settled_inv, main_step. cbn [pc numthreads threads history].
    rewrite (nth_error_set_thread _ _ _ _ Hn). split; reflexivity.
Qed.

Lemma early_decrement_is_lost_witness :
  let s := run world_ok schedule_early_worker
             (start 2 ["."; ".."; "a.wav"; "notes.txt"]%string) in
  let s' := run world_ok [RunThread 0 true; RunMain true] s in
  pc s = MIncrement ["notes.txt"%string] /\
  numthreads s = 0 /\
  numthreads s' = 1 /\
  nth_error (threads s') 0 = Some (WFinish a_wav) /\
  decrements_of 0
    (history (run world_ok (thread_to_end 0 ++ [RunMain true; RunMain true]) s'))
  = 0%nat.
Proof.
  cbv zeta.
  destruct (early_decrement_is_lost world_ok
              (run world_ok schedule_early_worker
                 (start 2 ["."; ".."; "a.wav"; "notes.txt"]%string))
              0%nat a_wav ["notes.txt"%string]
              ltac:(vm_compute; reflexivity) ltac:(vm_compute; reflexivity)
              ltac:(vm_compute; reflexivity)) as (H1 & _ & H3 & _ & Hrun).
  split; [vm_compute; reflexivity|]. split; [vm_compute; reflexivity|].
  split; [exact H1|]. split; [exact H3|].
  rewrite Hrun. vm_compute. reflexivity.
Defined.
